(** * Moon: virtual-DOM utilities of [src/util/util.js]

    A shallow embedding of the virtual-node constructor [h], the
    materializer [createNodeFromVNode], the attribute differ [diffProps],
    the tree differ [diff] and the object helper [merge].

    Conventions of the embedding.
    - JavaScript objects used as attribute maps are association lists
      in insertion order, so that [for ... in] visits keys in the order
      of the list.  In the attribute differ, property names are taken
      to be neither array indices nor names of the members every
      object inherits from [Object.prototype].  Numbers are integers;
      [ToString] is the one of integers that JavaScript holds exactly.
    - [merge] allocates an object whose prototype is its first
      argument; it is modelled on a store of objects with prototype
      links, with the [TypeError] of a shadowed [hasOwnProperty] and
      the setter of [__proto__].
    - The host is an HTML document: an element reports its name in
      upper case, a text node reports [#text], and the methods of an
      element put attribute names in lower case.  Names given to the
      host are taken to be names it accepts.  The live tree is a value
      of type [dnode]; a call [diff(node, vnode, parent)] receives
      [parent.childNodes] and the position of [node] in it, and
      returns the new child list.
    - A directive hook is a function of the element it is given.  What
      a hook does to the rest of the live tree, or to the virtual
      node, is not modelled; a property that would depend on it is
      stated for keys that name no directive.
    - Every call into the host (DOM methods on attached nodes,
      directive hooks, the instance's dispatcher) is appended to a
      trace of [event]s. *)

From Stdlib Require Import String Ascii Bool Arith ZArith Lia.
From Stdlib Require Import DecimalString List.
Import ListNotations.
Local Open Scope string_scope.
Local Open Scope list_scope.

Set Implicit Arguments.

(* ================================================================= *)
(** ** Strings *)

Module Str.

Definition isUpper (c : ascii) : bool := (("A" <=? c) && (c <=? "Z"))%char.
Definition isLower (c : ascii) : bool := (("a" <=? c) && (c <=? "z"))%char.

Definition lowerChar (c : ascii) : ascii :=
  if isUpper c then ascii_of_nat (nat_of_ascii c + 32) else c.
Definition upperChar (c : ascii) : ascii :=
  if isLower c then ascii_of_nat (nat_of_ascii c - 32) else c.

Fixpoint map (f : ascii -> ascii) (s : string) : string :=
  match s with
  | EmptyString => EmptyString
  | String c r => String (f c) (map f r)
  end.

(** [String.prototype.toLowerCase] / [toUpperCase] on ASCII text. *)
Definition toLowerCase : string -> string := map lowerChar.
Definition toUpperCase : string -> string := map upperChar.

(** [Array.prototype.join] once every element has been converted to a
    string. *)
Fixpoint join (sep : string) (l : list string) : string :=
  match l with
  | [] => EmptyString
  | [x] => x
  | x :: r => (x ++ sep ++ join sep r)%string
  end.

End Str.

(* ================================================================= *)
(** ** JavaScript values found in attribute maps *)

Inductive value : Type :=
| VUndefined
| VNull
| VBool (b : bool)
| VNum (z : Z)
| VStr (s : string).

(** ToBoolean. *)
Definition truthy (v : value) : bool :=
  match v with
  | VUndefined | VNull => false
  | VBool b => b
  | VNum z => negb (z =? 0)%Z
  | VStr s => negb (s =? EmptyString)
  end.

(** [===] on the values above. *)
Definition strictEq (a b : value) : bool :=
  match a, b with
  | VUndefined, VUndefined => true
  | VNull, VNull => true
  | VBool x, VBool y => Bool.eqb x y
  | VNum x, VNum y => (x =? y)%Z
  | VStr x, VStr y => (x =? y)
  | _, _ => false
  end.

(** ToString, as [setAttribute] applies it to its second argument; a
    number is printed in decimal, as JavaScript prints the integers it
    holds exactly. *)
Definition toStr (v : value) : string :=
  match v with
  | VUndefined => "undefined"
  | VNull => "null"
  | VBool true => "true"
  | VBool false => "false"
  | VNum z => NilZero.string_of_int (Z.to_int z)
  | VStr s => s
  end.

(** An object literal used as a map: own properties in insertion order. *)
Definition dict : Type := list (string * value).

Fixpoint hasOwn (p : dict) (k : string) : bool :=
  match p with
  | [] => false
  | (k', _) :: r => if k' =? k then true else hasOwn r k
  end.

(** [p[k]] on a plain object: [undefined] when the key is missing. *)
Fixpoint getOwn (p : dict) (k : string) : value :=
  match p with
  | [] => VUndefined
  | (k', v) :: r => if k' =? k then v else getOwn r k
  end.

(** [p[k] = v]: overwrite in place, or add as the newest property. *)
Fixpoint setOwn (p : dict) (k : string) (v : value) : dict :=
  match p with
  | [] => [(k, v)]
  | (k', v') :: r => if k' =? k then (k', v) :: r else (k', v') :: setOwn r k v
  end.

Definition keys (p : dict) : list string := List.map fst p.

(* ================================================================= *)
(** ** Objects with prototype links, and [merge] *)

Module Store.

Definition loc : Type := nat.

(** The prototype of an object: another object of the store,
    [Object.prototype] (as for an object literal), or none. *)
Inductive link : Type :=
| Proto (l : loc)
| ObjectPrototype
| Null.

Record object : Type := Obj { proto : link; own : dict }.

(** Objects are allocated at the end of the store. *)
Definition store : Type := list object.

Definition alloc (o : object) (st : store) : loc * store :=
  (length st, st ++ [o]).

(** [Object.create(obj)]. *)
Definition create (obj : loc) (st : store) : loc * store :=
  alloc (Obj (Proto obj) []) st.

(** Defining an own property of [l], or overwriting the one it has. *)
Fixpoint assign (l : loc) (k : string) (v : value) (st : store) : store :=
  match st, l with
  | [], _ => []
  | o :: r, O => Obj (proto o) (setOwn (own o) k v) :: r
  | o :: r, S l' => o :: assign l' k v r
  end.

(** Giving [l] another prototype. *)
Fixpoint setProto (l : loc) (p : link) (st : store) : store :=
  match st, l with
  | [], _ => []
  | o :: r, O => Obj p (own o) :: r
  | o :: r, S l' => o :: setProto l' p r
  end.

(** [o[k]] for a name that [Object.prototype] does not define: the
    own property, else the prototype's.  [fuel] bounds the length of
    the prototype chain that is followed. *)
Fixpoint getF (fuel : nat) (st : store) (l : loc) (k : string) : value :=
  match fuel with
  | O => VUndefined
  | S f =>
      match nth_error st l with
      | None => VUndefined
      | Some o =>
          if hasOwn (own o) k then getOwn (own o) k
          else match proto o with
               | Proto p => getF f st p k
               | ObjectPrototype | Null => VUndefined
               end
      end
  end.

Definition get (st : store) (l : loc) (k : string) : value :=
  getF (length st) st l k.

(** The keys [for (key in o)] visits: own keys first, then those of
    the prototype chain that are not shadowed.  [Object.prototype]
    has no enumerable member. *)
Fixpoint forInF (fuel : nat) (st : store) (l : loc) : list string :=
  match fuel with
  | O => []
  | S f =>
      match nth_error st l with
      | None => []
      | Some o =>
          keys (own o) ++
          match proto o with
          | Proto p => filter (fun k => negb (hasOwn (own o) k)) (forInF f st p)
          | ObjectPrototype | Null => []
          end
      end
  end.

Definition forIn (st : store) (l : loc) : list string :=
  forInF (length st) st l.

(** Where the search for a property ends: at an own property of an
    object of the chain, at [Object.prototype], or with the chain. *)
Inductive lookup : Type :=
| Found (v : value)
| Inherited
| Missing.

Fixpoint findF (fuel : nat) (st : store) (l : loc) (k : string) : lookup :=
  match fuel with
  | O => Missing
  | S f =>
      match nth_error st l with
      | None => Missing
      | Some o =>
          if hasOwn (own o) k then Found (getOwn (own o) k)
          else match proto o with
               | Proto p => findF f st p k
               | ObjectPrototype => Inherited
               | Null => Missing
               end
      end
  end.

Definition find (st : store) (l : loc) (k : string) : lookup :=
  findF (length st) st l k.

(** [Object.prototype.hasOwnProperty] applied to [l]. *)
Definition hasOwnProperty (st : store) (l : loc) (k : string) : bool :=
  match nth_error st l with
  | Some o => hasOwn (own o) k
  | None => false
  end.

(** [o.hasOwnProperty(k)]: the method is looked up on [o] like any
    property.  A property of that name met on the chain holds a
    [value], which is no function, and the call raises a [TypeError]
    ([None]), as it does when the chain ends without
    [Object.prototype]; otherwise the method of [Object.prototype]
    answers. *)
Definition callHasOwnProperty (st : store) (l : loc) (k : string)
    : option bool :=
  match find st l "hasOwnProperty" with
  | Inherited => Some (hasOwnProperty st l k)
  | Found _ | Missing => None
  end.

(** [o[k] = v].  [__proto__] is an accessor of [Object.prototype]:
    unless a property of that name is met before it on the chain, the
    assignment runs the setter, which takes the prototype away when
    [v] is [null] and does nothing for any other [value].  Every
    other assignment defines an own property or overwrites it. *)
Definition put (l : loc) (k : string) (v : value) (st : store) : store :=
  if k =? "__proto__" then
    match find st l k with
    | Inherited =>
        match v with
        | VNull => setProto l Null st
        | _ => st
        end
    | Found _ | Missing => assign l k v st
    end
  else assign l k v st.

(** [merge(obj, obj2)]:
<<
    var merged = Object.create(obj);
    for (var key in obj2) {
      if (obj2.hasOwnProperty(key)) merged[key] = obj2[key];
    }
    return merged;
>>
    [None] stands for the [TypeError] of the call in the test. *)
Definition merge (obj obj2 : loc) (st : store) : option (loc * store) :=
  let '(merged, st1) := create obj st in
  match
    fold_left
      (fun acc key =>
         match acc with
         | None => None
         | Some s =>
             match callHasOwnProperty s obj2 key with
             | None => None
             | Some true => Some (put merged key (get s obj2 key) s)
             | Some false => Some s
             end
         end)
      (forIn st1 obj2) (Some st1)
  with
  | Some st2 => Some (merged, st2)
  | None => None
  end.

(** [merge(obj, obj2)] when [obj2] holds ordinary property names: the
    test is then the one of [Object.prototype] and every assignment
    defines an own property, so that the call returns, with this
    result (lemma [merge_ordinary]). *)
Definition overlay (obj obj2 : loc) (st : store) : loc * store :=
  let '(merged, st1) := create obj st in
  let st2 :=
    fold_left
      (fun s key =>
         if hasOwnProperty s obj2 key
         then assign merged key (get s obj2 key) s
         else s)
      (forIn st1 obj2) st1 in
  (merged, st2).

(** Prototype links point to objects allocated earlier, as
    [Object.create] guarantees. *)
Definition wf (st : store) : Prop :=
  forall l o p, nth_error st l = Some o -> proto o = Proto p -> p < l.

(** An attribute map as the differ receives it: an object literal. *)
Definition plain (st : store) (l : loc) (p : dict) : Prop :=
  nth_error st l = Some (Obj ObjectPrototype p).

End Store.

(* ================================================================= *)
(** ** The template compiler *)

Module Template.

(** The class [[A-Za-z0-9_.()\[\]]] of the expression
    [/{{([A-Za-z0-9_.()\[\]]+)}}/gi]. *)
Definition keyChar (c : ascii) : bool :=
  Str.isUpper c || Str.isLower c || (("0" <=? c) && (c <=? "9"))%char
  || (c =? "_")%char || (c =? ".")%char || (c =? "(")%char
  || (c =? ")")%char || (c =? "[")%char || (c =? "]")%char.

(** The longest run of class characters at the head of [s], and what
    follows it. *)
Fixpoint keyRun (s : string) : string * string :=
  match s with
  | EmptyString => (EmptyString, EmptyString)
  | String c r =>
      if keyChar c
      then let '(k, rest) := keyRun r in (String c k, rest)
      else (EmptyString, s)
  end.

(** A match of the expression at the head of [s]: the key, and what
    follows the match.  The run of class characters must be the
    longest one, since a shorter run is followed by a class character
    and not by the closing braces. *)
Definition matchAt (s : string) : option (string * string) :=
  match s with
  | String "{" (String "{" r) =>
      match keyRun r with
      | (EmptyString, _) => None
      | (key, String "}" (String "}" rest)) => Some (key, rest)
      | _ => None
      end
  | _ => None
  end.

(** The text of a match for [key]. *)
Definition placeholder (key : string) : string :=
  ("{{" ++ key ++ "}}")%string.

(** The matches that [template.replace(TEMPLATE_RE, f)] hands to [f],
    from left to right, as pairs of the matched text and the key;
    [skip] counts the characters of the last match still to be passed
    over. *)
Fixpoint scan (skip : nat) (s : string) : list (string * string) :=
  match s with
  | EmptyString => []
  | String _ r =>
      match skip with
      | S k => scan k r
      | O =>
          match matchAt s with
          | Some (key, _) =>
              (placeholder key, key) :: scan (String.length key + 3) r
          | None => scan 0 r
          end
      end
  end.

(** [s] without the prefix [p], when it has it. *)
Fixpoint stripPrefix (p s : string) : option string :=
  match p, s with
  | EmptyString, _ => Some s
  | String a p', String b s' => if (a =? b)%char then stripPrefix p' s' else None
  | String _ _, EmptyString => None
  end.

(** [s.replace(pat, rep)] for strings [pat] and [rep], [rep] without a
    dollar sign: the first occurrence of [pat] is replaced. *)
Fixpoint replaceFirst (pat rep s : string) : string :=
  match stripPrefix pat s with
  | Some rest => (rep ++ rest)%string
  | None =>
      match s with
      | EmptyString => EmptyString
      | String c r => String c (replaceFirst pat rep r)
      end
  end.

(** The double quote. *)
Definition dq : string := String "034"%char EmptyString.

(** [this.get("key")] and [" + this.get("key") + "]. *)
Definition getCall (key : string) : string :=
  ("this.get(" ++ dq ++ key ++ dq ++ ")")%string.

Definition getConcat (key : string) : string :=
  (dq ++ " + " ++ getCall key ++ " + " ++ dq)%string.

(** [compileTemplate(template, isString, customCode)]. *)
Definition compileTemplate (template : string) (isString : bool)
    (customCode : option (string -> string -> string -> string)) : string :=
  fold_left
    (fun compiled mk =>
       let '(match_, key) := mk in
       match customCode with
       | Some f => f compiled match_ key
       | None =>
           if isString
           then replaceFirst match_ (getConcat key) compiled
           else replaceFirst match_ (getCall key) compiled
       end)
    (scan 0 template) template.

End Template.

(* ================================================================= *)
(** ** Virtual nodes and the constructor [h] *)

(** A handler is known by the name of the instance method it calls. *)
Definition handler : Type := string.

Record metadata : Type :=
  Meta { shouldRender : bool;
         eventListeners : list (string * list handler) }.

Definition defaultMetadata : metadata := Meta true [].

#[local] Unset Elimination Schemes.
Inductive vnode : Type :=
  VNode { type : string;
          val : string;
          props : dict;
          children : list vnode;
          meta : metadata }.
#[local] Set Elimination Schemes.

(** [createElement(type, val, props, children, meta)]; a missing
    [meta] is replaced by [defaultMetadata()]. *)
Definition createElement (type val : string) (props : dict)
    (children : list vnode) (meta : option metadata) : vnode :=
  VNode type val props children
        (match meta with Some m => m | None => defaultMetadata end).

(** One trailing argument of [h], by the case [h] puts it in. *)
Inductive harg : Type :=
| AArray (l : list vnode)   (* Array.isArray(arg) *)
| AString (s : string)      (* typeof arg === "string" *)
| ANull                     (* arg === null *)
| ANode (v : vnode).        (* anything else: pushed as is *)

(** A virtual node is an object literal without a [toString] of its
    own, so converting it to a string gives the default tag. *)
Definition vnodeToString (_ : vnode) : string := "[object Object]".

(** [children.join] with the empty separator, on an array of virtual
    nodes. *)
Definition joinChildren (children : list vnode) : string :=
  Str.join EmptyString (List.map vnodeToString children).

(** The body of the loop of [h] for one argument. *)
Definition hStep (meta : option metadata) (children : list vnode)
    (arg : harg) : list vnode :=
  match arg with
  | AArray l => children ++ l
  | AString s => children ++ [createElement "#text" s [] [] meta]
  | ANull => children ++ [createElement "#text" EmptyString [] [] meta]
  | ANode v => children ++ [v]
  end.

(** [h(tag, attrs, meta, ...args)]; [attrs] is [None] when the second
    argument is falsy. *)
Definition h (tag : string) (attrs : option dict) (meta : option metadata)
    (args : list harg) : vnode :=
  let attrs := match attrs with Some a => a | None => [] end in
  let children := fold_left (hStep meta) args [] in
  createElement tag (joinChildren children) attrs children meta.

(* ================================================================= *)
(** ** The live tree *)

#[local] Unset Elimination Schemes.
Inductive dnode : Type :=
| DText (data : string)
| DElem (tagName : string)
        (attributes : list (string * string))
        (listeners : list (string * handler))
        (childNodes : list dnode).
#[local] Set Elimination Schemes.

Module Dom.

(** [node.nodeName]. *)
Definition nodeName (n : dnode) : string :=
  match n with
  | DText _ => "#text"
  | DElem t _ _ _ => t
  end.

Definition childNodes (n : dnode) : list dnode :=
  match n with
  | DText _ => []
  | DElem _ _ _ c => c
  end.

Definition attributes (n : dnode) : list (string * string) :=
  match n with
  | DText _ => []
  | DElem _ a _ _ => a
  end.

Definition listeners (n : dnode) : list (string * handler) :=
  match n with
  | DText _ => []
  | DElem _ _ l _ => l
  end.

(** [document.createTextNode(s)]. *)
Definition createTextNode (s : string) : dnode := DText s.

(** [document.createElement(tag)] in an HTML document: the element
    reports its name in upper case. *)
Definition createElement (tag : string) : dnode :=
  DElem (Str.toUpperCase tag) [] [] [].

(** [el.appendChild(child)] for a child that has no parent yet. *)
Definition appendChild (el child : dnode) : dnode :=
  match el with
  | DText s => DText s
  | DElem t a l c => DElem t a l (c ++ [child])
  end.

Definition setChildNodes (el : dnode) (c : list dnode) : dnode :=
  match el with
  | DText s => DText s
  | DElem t a l _ => DElem t a l c
  end.

Fixpoint setAttr (a : list (string * string)) (k v : string)
    : list (string * string) :=
  match a with
  | [] => [(k, v)]
  | (k', v') :: r =>
      if k' =? k then (k', v) :: r else (k', v') :: setAttr r k v
  end.

Definition delAttr (a : list (string * string)) (k : string)
    : list (string * string) :=
  filter (fun kv => negb (fst kv =? k)) a.

(** [el.setAttribute(name, v)] on an element of an HTML document: the
    name is put in lower case and the value is stored as a string. *)
Definition setAttribute (el : dnode) (name : string) (v : value) : dnode :=
  match el with
  | DText s => DText s
  | DElem t a l c => DElem t (setAttr a (Str.toLowerCase name) (toStr v)) l c
  end.

(** [el.removeAttribute(name)], the name put in lower case likewise. *)
Definition removeAttribute (el : dnode) (name : string) : dnode :=
  match el with
  | DText s => DText s
  | DElem t a l c => DElem t (delAttr a (Str.toLowerCase name)) l c
  end.

(** [el.addEventListener(type, f)] where [f] calls [method]. *)
Definition addEventListener (el : dnode) (type : string) (method : handler)
    : dnode :=
  match el with
  | DText s => DText s
  | DElem t a l c => DElem t a (l ++ [(type, method)]) c
  end.

(** [node.textContent = s]: a text node takes the string; an element
    has its children replaced by one text node (none for the empty string). *)
Definition setTextContent (n : dnode) (s : string) : dnode :=
  match n with
  | DText _ => DText s
  | DElem t a l _ => DElem t a l (if s =? EmptyString then [] else [DText s])
  end.

(** The child list after [parent.removeChild(childNodes[i])]. *)
Definition removeAt (i : nat) (kids : list dnode) : list dnode :=
  firstn i kids ++ skipn (S i) kids.

(** The child list after [childNodes[i]] has been replaced by, or
    updated to, [n]. *)
Definition replaceAt (i : nat) (n : dnode) (kids : list dnode)
    : list dnode :=
  firstn i kids ++ n :: skipn (S i) kids.

End Dom.

(** [extractAttrs(node)]: a text node has no [attributes]; an element's
    are copied one by one into a new object. *)
Definition extractAttrs (node : dnode) : dict :=
  match node with
  | DText _ => []
  | DElem _ rawAttrs _ _ =>
      fold_left (fun attrs kv => setOwn attrs (fst kv) (VStr (snd kv)))
                rawAttrs []
  end.

(* ================================================================= *)
(** ** Calls into the host *)

Inductive event : Type :=
| AppendChild (child : dnode)
| RemoveChild (child : dnode)
| ReplaceChild (newChild oldChild : dnode)
| SetTextContent (node : dnode) (s : string)
| SetAttribute (node : dnode) (name : string) (v : value)
| RemoveAttribute (node : dnode) (name : string)
| Directive (name : string) (node : dnode) (v : value) (vn : vnode)
| On (type : string) (method : handler)
| AddEventListener (node : dnode) (type : string) (method : handler)
| Under (i : nat) (e : event).
    (* [e] was issued while the children of [childNodes[i]] were diffed *)

Definition trace : Type := list event.

(** Whether an event adds, removes or replaces a live node, at any
    depth. *)
Fixpoint structural (e : event) : bool :=
  match e with
  | AppendChild _ | RemoveChild _ | ReplaceChild _ _ => true
  | Under _ e' => structural e'
  | _ => false
  end.

Definition vnodes : Type := list vnode.

Definition isSome {A : Type} (o : option A) : bool :=
  match o with Some _ => true | None => false end.

(** A directive is a hook of the host: it receives the live element,
    a value and the virtual node.  It is modelled by what it makes of
    the element. *)
Definition hook : Type := dnode -> value -> vnode -> dnode.

Section Moon.

(** [self.$events[type]] is truthy: the instance dispatches [type]
    itself. *)
Variable events : string -> bool.

(** The registries [directives] and [specialDirectives], defined
    elsewhere in the library. *)
Variable directives : string -> option hook.
Variable specialDirectives : string -> bool.

(* --------------------------------------------------------------- *)
(** *** Materializer *)

(** The variable [method] of [addEventListeners] is declared with
    [var], so every listener closure created by one call reads the
    same variable, which holds the handler assigned last. *)
Definition finalMethod (eventListeners : list (string * list handler))
    : handler :=
  last (concat (List.map snd eventListeners)) EmptyString.

(** [addEventListeners(node, eventListeners)].  A [for ... in] over
    [undefined] has no iteration. *)
Definition addEventListeners (node : dnode)
    (eventListeners : option (list (string * list handler)))
    : dnode * trace :=
  match eventListeners with
  | None => (node, [])
  | Some ls =>
      fold_left
        (fun acc tm =>
           let type := fst tm in
           fold_left
             (fun '(node, t) method =>
                if events type
                then (node, t ++ [On type method])
                else (Dom.addEventListener node type (finalMethod ls),
                      t ++ [AddEventListener node type (finalMethod ls)]))
             (snd tm) acc)
        ls (node, [])
  end.

(** [createNodeFromVNode(vnode)].  The listeners of the node are
    handed to [map] as its [this] argument, and [addEventListeners]
    is called with the element alone. *)
Fixpoint createNodeFromVNode (vnode : vnode) : dnode * trace :=
  if type vnode =? "#text" then
    (Dom.createTextNode (val vnode), [])
  else
    let el := Dom.createElement (type vnode) in
    let children := List.map createNodeFromVNode (children vnode) in
    let el := fold_left Dom.appendChild (List.map fst children) el in
    let '(el, t) := addEventListeners el None in
    (el, concat (List.map snd children) ++ t).

(* --------------------------------------------------------------- *)
(** *** Attribute differ *)

(** The store in which [diffProps] finds its two maps, and the
    result of [merge(nodeProps, vnodeProps)] in it.  The names of the
    two maps being ordinary, [merge] returns what [Store.overlay]
    gives. *)
Definition propStore (nodeProps vnodeProps : dict) : Store.store :=
  [Store.Obj Store.ObjectPrototype nodeProps; Store.Obj Store.ObjectPrototype vnodeProps].

Definition allPropsOf (nodeProps vnodeProps : dict)
    : Store.loc * Store.store :=
  Store.overlay 0 1 (propStore nodeProps vnodeProps).

(** The body of the loop of [diffProps] for one [propName]. *)
Definition diffProp (nodeProps vnodeProps : dict) (vnode : vnode)
    (allProps : Store.loc * Store.store)
    (acc : dnode * trace) (propName : string) : dnode * trace :=
  let '(node, t) := acc in
  if negb (truthy (getOwn vnodeProps propName))
     || isSome (directives propName)
     || specialDirectives propName
  then
    let '(node, t) :=
      match directives propName with
      | Some run =>
          let v := Store.get (snd allProps) (fst allProps) propName in
          (run node v vnode, t ++ [Directive propName node v vnode])
      | None => (node, t)
      end in
    (Dom.removeAttribute node propName, t ++ [RemoveAttribute node propName])
  else if negb (truthy (getOwn nodeProps propName))
          || negb (strictEq (getOwn nodeProps propName)
                            (getOwn vnodeProps propName))
  then
    (Dom.setAttribute node propName (getOwn vnodeProps propName),
     t ++ [SetAttribute node propName (getOwn vnodeProps propName)])
  else (node, t).

(** [diffProps(node, nodeProps, vnodeProps, vnode)]. *)
Definition diffProps (node : dnode) (nodeProps vnodeProps : dict)
    (vnode : vnode) : dnode * trace :=
  let allProps := allPropsOf nodeProps vnodeProps in
  fold_left (diffProp nodeProps vnodeProps vnode allProps)
            (Store.forIn (snd allProps) (fst allProps))
            (node, []).

(* --------------------------------------------------------------- *)
(** *** Tree differ *)

(** [diff(node, undefined, parent)] with [node = childNodes[i]]: the
    render gate is open; a present node is removed; with no node
    either, [createNodeFromVNode(undefined)] raises a [TypeError]. *)
Definition diffMissing (kids : list dnode) (i : nat)
    : option (list dnode * trace) :=
  match nth_error kids i with
  | Some node => Some (Dom.removeAt i kids, [RemoveChild node])
  | None => None
  end.

(** The child loop once [i] has passed [vnode.children.length]: it
    goes on while [i < node.childNodes.length], and the list is
    live, so it shrinks under the loop. *)
Fixpoint removeRest (fuel i : nat) (kids : list dnode)
    : list dnode * trace :=
  match fuel with
  | O => (kids, [])
  | S fuel' =>
      if (i <? length kids)%nat then
        match diffMissing kids i with
        | Some (kids1, t1) =>
            let '(kids2, t2) := removeRest fuel' (S i) kids1 in
            (kids2, t1 ++ t2)
        | None => (kids, [])
        end
      else (kids, [])
  end.

(** [diff(node, vnode, parent)] for a present [vnode], where [kids]
    is [parent.childNodes] and [node] is [kids[i]] ([undefined] when
    [i] is out of range).  The child loop
<<
    for (i = 0; i < vnode.children.length || i < node.childNodes.length; i++)
      diff(node.childNodes[i], vnode.children[i], node);
>>
    first runs through [vnode.children], then through what is left of
    [node.childNodes]. *)
Fixpoint diffNode (vnode : vnode) (kids : list dnode) (i : nat)
    {struct vnode} : list dnode * trace :=
  if shouldRender (meta vnode) then
    match nth_error kids i with
    | None =>
        let '(el, t) := createNodeFromVNode vnode in
        (kids ++ [el], t ++ [AppendChild el])
    | Some node =>
        let nodeName := Str.toLowerCase (Dom.nodeName node) in
        if negb (nodeName =? type vnode) then
          let '(el, t) := createNodeFromVNode vnode in
          (Dom.replaceAt i el kids, t ++ [ReplaceChild el node])
        else if (nodeName =? "#text") && (type vnode =? "#text") then
          (Dom.replaceAt i (Dom.setTextContent node (val vnode)) kids,
           [SetTextContent node (val vnode)])
        else if negb (type vnode =? EmptyString) then
          let nodeProps := extractAttrs node in
          let '(node, t1) := diffProps node nodeProps (props vnode) vnode in
          let '(childNodes, t2) :=
            (fix loop (vs : vnodes) (j : nat)
                 (childNodes : list dnode) {struct vs}
               : list dnode * trace :=
               match vs with
               | v :: vs' =>
                   let '(childNodes1, ta) := diffNode v childNodes j in
                   let '(childNodes2, tb) := loop vs' (S j) childNodes1 in
                   (childNodes2, ta ++ tb)
               | [] => removeRest (length childNodes) j childNodes
               end) (children vnode) 0 (Dom.childNodes node) in
          (Dom.replaceAt i (Dom.setChildNodes node childNodes) kids,
           t1 ++ List.map (Under i) t2)
        else (kids, [])
    end
  else (kids, []).

(** The child loop of [diffNode], by name. *)
Definition diffChildren : vnodes -> nat -> list dnode -> list dnode * trace :=
  fix loop (vs : vnodes) (j : nat) (childNodes : list dnode) {struct vs}
    : list dnode * trace :=
    match vs with
    | v :: vs' =>
        let '(childNodes1, ta) := diffNode v childNodes j in
        let '(childNodes2, tb) := loop vs' (S j) childNodes1 in
        (childNodes2, ta ++ tb)
    | [] => removeRest (length childNodes) j childNodes
    end.

(** [diff(node, vnode, parent)]. *)
Definition diff (kids : list dnode) (i : nat) (vnode : option vnode)
    : option (list dnode * trace) :=
  match vnode with
  | Some v => Some (diffNode v kids i)
  | None => diffMissing kids i
  end.

(** The child loop as it is written, on the index [i] alone; [fuel]
    bounds the number of turns, and [None] stands for a loop that
    would go on or for a [TypeError]. *)
Fixpoint childLoop (fuel : nat) (vs : vnodes) (i : nat)
    (childNodes : list dnode) : option (list dnode * trace) :=
  if ((i <? length vs) || (i <? length childNodes))%nat then
    match fuel with
    | O => None
    | S fuel' =>
        match diff childNodes i (nth_error vs i) with
        | Some (childNodes1, t1) =>
            match childLoop fuel' vs (S i) childNodes1 with
            | Some (childNodes2, t2) => Some (childNodes2, t1 ++ t2)
            | None => None
            end
        | None => None
        end
    end
  else Some (childNodes, []).

End Moon.

(* ================================================================= *)
(** ** Notions used to state the properties *)

(** The own properties [merge] gives to the object it returns: those
    of [p], assigned in the order of [ks]. *)
Definition copyOwn (p : dict) (ks : list string) (d : dict) : dict :=
  fold_left (fun d k => setOwn d k (getOwn p k)) ks d.

(** The value [diffProps] hands to a directive: [allProps[propName]]
    reads the desired map first and the live attributes second. *)
Definition mergedValue (nodeProps vnodeProps : dict) (k : string) : value :=
  if hasOwn vnodeProps k then getOwn vnodeProps k else getOwn nodeProps k.

(** The live node [createNodeFromVNode] returns. *)
Fixpoint rendered (v : vnode) : dnode :=
  if type v =? "#text" then DText (val v)
  else DElem (Str.toUpperCase (type v)) [] [] (List.map rendered (children v)).

(** No node of the live subtree carries an attribute. *)
Fixpoint attrFree (n : dnode) : bool :=
  match n with
  | DText _ => true
  | DElem _ a _ c =>
      match a with [] => true | _ :: _ => false end && forallb attrFree c
  end.

(** No node of the live subtree carries a listener. *)
Fixpoint listenerFree (n : dnode) : bool :=
  match n with
  | DText _ => true
  | DElem _ _ l c =>
      match l with [] => true | _ :: _ => false end && forallb listenerFree c
  end.

(** Every tag of the tree is written in lower case. *)
Fixpoint lowerTags (v : vnode) : bool :=
  (Str.toLowerCase (type v) =? type v) && forallb lowerTags (children v).

(** No attribute key of the tree names a registered directive:
    reconciling against the tree runs no hook. *)
Fixpoint noDirectiveKeys (directives : string -> option hook) (v : vnode)
    : bool :=
  forallb (fun k => negb (isSome (directives k))) (keys (props v))
  && forallb (noDirectiveKeys directives) (children v).

(** The test of [diffProps] that sends a key to the removing branch. *)
Definition removes (directives : string -> option hook)
    (specialDirectives : string -> bool) (vnodeProps : dict) (k : string)
    : bool :=
  negb (truthy (getOwn vnodeProps k))
  || isSome (directives k) || specialDirectives k.

(** One turn of the loop of [diffProps], started with an empty trace:
    the element it leaves and the events it issues. *)
Definition turn (directives : string -> option hook)
    (specialDirectives : string -> bool) (nodeProps vnodeProps : dict)
    (vnode : vnode) (node : dnode) (k : string) : dnode * trace :=
  diffProp directives specialDirectives nodeProps vnodeProps vnode
           (allPropsOf nodeProps vnodeProps) (node, []) k.

(** A reconciliation that leaves every node in place: the child list
    keeps its length, only position [i] may change, and no node is
    added, removed or replaced at any depth. *)
Definition quiet (events : string -> bool)
    (directives : string -> option hook) (specialDirectives : string -> bool)
    (v : vnode) : Prop :=
  forall kids i,
    nth_error kids i = Some (rendered v) ->
    let r := diffNode events directives specialDirectives v kids i in
    length (fst r) = length kids /\
    (forall j, j <> i -> nth_error (fst r) j = nth_error kids j) /\
    (forall e, In e (snd r) -> structural e = false).

(** A directive [m-show] that writes its value into [style]. *)
Definition showDirective (name : string) : option hook :=
  if name =? "m-show"
  then Some (fun el v _ => Dom.setAttribute el "style" v)
  else None.

(** A directive [m-text] that makes its value the text of its
    element. *)
Definition textDirective (name : string) : option hook :=
  if name =? "m-text"
  then Some (fun el v _ => Dom.setTextContent el (toStr v))
  else None.

(** The names [for ... in] finds on [allProps] in [diffProps], in the
    order of the visit. *)
Definition propNames (nodeProps vnodeProps : dict) : list string :=
  Store.forIn (snd (allPropsOf nodeProps vnodeProps))
              (fst (allPropsOf nodeProps vnodeProps)).

(** The loop of [diffProps] over the names [ks], started from the
    element and the trace of [acc]. *)
Definition loopFrom (directives : string -> option hook)
    (specialDirectives : string -> bool) (nodeProps vnodeProps : dict)
    (vnode : vnode) (ks : list string) (acc : dnode * trace) : dnode * trace :=
  fold_left (diffProp directives specialDirectives nodeProps vnodeProps vnode
                      (allPropsOf nodeProps vnodeProps))
            ks acc.

(** The removing branch of [diffProps] for the key [k] on the element
    [el], where [v] is [allProps[k]]: the hook of a directive runs on
    [el], and the attribute is removed from the element the hook
    leaves; without a directive it is removed from [el]. *)
Definition removal (directives : string -> option hook) (vnode : vnode)
    (el : dnode) (k : string) (v : value) : dnode * trace :=
  match directives k with
  | Some run =>
      (Dom.removeAttribute (run el v vnode) k,
       [Directive k el v vnode; RemoveAttribute (run el v vnode) k])
  | None => (Dom.removeAttribute el k, [RemoveAttribute el k])
  end.

(** The map without the key [k]. *)
Definition withoutKey (p : dict) (k : string) : dict :=
  filter (fun kv => negb (fst kv =? k)) p.

(** *** Notions for the further properties *)

(** The value of the attribute that the list holds under the name
    [k]. *)
Fixpoint getAttr (a : list (string * string)) (k : string) : option string :=
  match a with
  | [] => None
  | (k', v) :: r => if k' =? k then Some v else getAttr r k
  end.

(** The value of the attribute whose name, as the element stores it,
    is [k]. *)
Definition attributeNamed (n : dnode) (k : string) : option string :=
  getAttr (Dom.attributes n) k.

(** [el.hasAttribute(name)] in an HTML document: the name is put in
    lower case before the attributes are searched. *)
Definition hasAttribute (n : dnode) (name : string) : bool :=
  isSome (getAttr (Dom.attributes n) (Str.toLowerCase name)).

(** The names of the members every object inherits from
    [Object.prototype]. *)
Definition objectPrototypeNames : list string :=
  ["constructor"; "hasOwnProperty"; "isPrototypeOf"; "propertyIsEnumerable";
   "toLocaleString"; "toString"; "valueOf"; "__proto__";
   "__defineGetter__"; "__defineSetter__";
   "__lookupGetter__"; "__lookupSetter__"].

Definition inherited (k : string) : bool :=
  existsb (String.eqb k) objectPrototypeNames.

(** Names every host accepts.  An attribute name: a letter, an
    underscore or a colon, then letters, digits, hyphens, underscores,
    colons and full stops.  An element name: a letter, then letters,
    digits and hyphens. *)
Definition isLetter (c : ascii) : bool := Str.isUpper c || Str.isLower c.
Definition isDigit (c : ascii) : bool := (("0" <=? c) && (c <=? "9"))%char.

Fixpoint allChars (f : ascii -> bool) (s : string) : bool :=
  match s with
  | EmptyString => true
  | String c r => f c && allChars f r
  end.

Definition validName (s : string) : bool :=
  match s with
  | EmptyString => false
  | String c r =>
      (isLetter c || (c =? "_")%char || (c =? ":")%char)
      && allChars (fun c => isLetter c || isDigit c || (c =? "-")%char
                            || (c =? "_")%char || (c =? ":")%char
                            || (c =? ".")%char) r
  end.

Definition validTag (s : string) : bool :=
  match s with
  | EmptyString => false
  | String c r =>
      isLetter c
      && allChars (fun c => isLetter c || isDigit c || (c =? "-")%char) r
  end.

(** An ordinary attribute name: the host accepts it, and it is not the
    name of a member of [Object.prototype].  Such a name is no array
    index, since it does not start with a digit. *)
Definition ordinaryKey (k : string) : bool :=
  validName k && negb (inherited k).

(** An ordinary name in lower case, as the host stores it. *)
Definition plainName (k : string) : bool :=
  ordinaryKey k && (Str.toLowerCase k =? k).

(** A number that JavaScript holds exactly and prints in decimal. *)
Definition safeValue (v : value) : bool :=
  match v with
  | VNum z => (Z.abs z <? 2 ^ 53)%Z
  | _ => true
  end.

(** A desired map with plain names and safe values. *)
Definition plainProps (p : dict) : bool :=
  forallb (fun kv => plainName (fst kv) && safeValue (snd kv)) p.

(** A tree the host can materialize and whose attribute keys are
    ordinary: every type is [#text] or an element name. *)
Fixpoint tame (v : vnode) : bool :=
  ((type v =? "#text") || validTag (type v))
  && forallb ordinaryKey (keys (props v))
  && forallb tame (children v).

(** A tame tree whose attribute maps are plain. *)
Fixpoint plainTree (v : vnode) : bool :=
  ((type v =? "#text") || validTag (type v))
  && plainProps (props v)
  && forallb plainTree (children v).

(** A map [merge] can take in second place: no key shadows the method
    [hasOwnProperty], and none is [__proto__]. *)
Definition mergeable (p : dict) : bool :=
  negb (hasOwn p "hasOwnProperty") && negb (hasOwn p "__proto__").

(** What reading a property of [extractAttrs(node)] gives for an
    attribute that is present, or absent. *)
Definition attrValue (o : option string) : value :=
  match o with Some s => VStr s | None => VUndefined end.

(** The attribute a desired map asks for under [k]: the string of a
    truthy value, and no attribute for a falsy or missing one. *)
Definition desiredAttr (vnodeProps : dict) (k : string) : option string :=
  if truthy (getOwn vnodeProps k)
  then Some (toStr (getOwn vnodeProps k))
  else None.

(** The render gate of a node. *)
Definition gateOpen (v : vnode) : bool := shouldRender (meta v).

(** The elements at positions 0, 2, 4, ... and at 1, 3, 5, ... *)
Fixpoint evens (A : Type) (l : list A) : list A :=
  match l with
  | [] => []
  | x :: r => x :: odds r
  end
with odds (A : Type) (l : list A) : list A :=
  match l with
  | [] => []
  | _ :: r => evens r
  end.

(** The children one argument of [h] contributes. *)
Definition argChildren (meta : option metadata) (arg : harg) : list vnode :=
  hStep meta [] arg.

(** A check of [Store.wf] that computes. *)
Fixpoint wfFrom (l : nat) (st : Store.store) : bool :=
  match st with
  | [] => true
  | o :: r =>
      match Store.proto o with
      | Store.Proto p => (p <? l)%nat
      | Store.ObjectPrototype | Store.Null => true
      end && wfFrom (S l) r
  end.

(** Every value of the desired map is a non-empty string. *)
Definition stringValued (vnodeProps : dict) : bool :=
  forallb (fun kv => match snd kv with
                     | VStr s => negb (s =? EmptyString)
                     | _ => false
                     end) vnodeProps.

(** No name occurs twice, as in the attribute list of an element. *)
Fixpoint unique (l : list string) : bool :=
  match l with
  | [] => true
  | x :: r => negb (existsb (String.eqb x) r) && unique r
  end.

(** The tree is rendered throughout and every type is non-empty. *)
Fixpoint rendersFully (v : vnode) : bool :=
  gateOpen v && negb (type v =? EmptyString)
  && forallb rendersFully (children v).

(** The live node has the shape of the desired node: text for a text
    leaf, and otherwise an element of that type, in lower case, with
    one child of the right shape for each desired child; the names of
    its attributes are plain and no name occurs twice. *)
Fixpoint alike (v : vnode) (n : dnode) {struct v} : bool :=
  match n with
  | DText _ => type v =? "#text"
  | DElem t a _ c =>
      negb (type v =? "#text") && (Str.toLowerCase t =? type v)
      && unique (List.map fst a) && forallb plainName (List.map fst a)
      && (fix all2 (vs : vnodes) (ns : list dnode) {struct vs} : bool :=
            match vs, ns with
            | [], [] => true
            | v' :: vs', n' :: ns' => alike v' n' && all2 vs' ns'
            | _, _ => false
            end) (children v) c
  end.

(** The live node is what the desired node describes: the text of a
    leaf, and for an element the type, the attributes its [props] ask
    for and children that are what the desired children describe. *)
Fixpoint conforms (v : vnode) (n : dnode) {struct v} : Prop :=
  match n with
  | DText s => type v = "#text" /\ s = val v
  | DElem t a _ c =>
      type v <> "#text" /\ Str.toLowerCase t = type v /\
      (forall k, getAttr a k = desiredAttr (props v) k) /\
      (fix all2 (vs : vnodes) (ns : list dnode) {struct vs} : Prop :=
         match vs, ns with
         | [], [] => True
         | v' :: vs', n' :: ns' => conforms v' n' /\ all2 vs' ns'
         | _, _ => False
         end) (children v) c
  end.

(** The string holds no opening brace. *)
Fixpoint noBrace (s : string) : bool :=
  match s with
  | EmptyString => true
  | String c r => negb (c =? "{")%char && noBrace r
  end.

(** A key the expression accepts: one or more class characters. *)
Fixpoint keyChars (s : string) : bool :=
  match s with
  | EmptyString => true
  | String c r => Template.keyChar c && keyChars r
  end.

Definition validKey (key : string) : bool :=
  negb (key =? EmptyString) && keyChars key.

(** A template given by its pieces: each text is followed by the
    placeholder of a key, and [last] closes the template.  [written]
    is the template itself, [expanded] the same text with [code key]
    in place of each placeholder. *)
Fixpoint written (pieces : list (string * string)) (last : string) : string :=
  match pieces with
  | [] => last
  | (text, key) :: r =>
      (text ++ Template.placeholder key ++ written r last)%string
  end.

Fixpoint expanded (code : string -> string) (pieces : list (string * string))
    (last : string) : string :=
  match pieces with
  | [] => last
  | (text, key) :: r => (text ++ code key ++ expanded code r last)%string
  end.

(** Every text is free of opening braces and every key is valid. *)
Definition plainPieces (pieces : list (string * string)) : bool :=
  forallb (fun tk => noBrace (fst tk) && validKey (snd tk)) pieces.

(** The string holds no closing brace. *)
Fixpoint noClose (s : string) : bool :=
  match s with
  | EmptyString => true
  | String c r => negb (c =? "}")%char && noClose r
  end.

(** The same tree with other attribute maps and other metadata. *)
Fixpoint relabel (fp : dict -> dict) (fm : metadata -> metadata) (v : vnode)
    : vnode :=
  VNode (type v) (val v) (fp (props v))
        (List.map (relabel fp fm) (children v)) (fm (meta v)).

Arguments allPropsOf : simpl never.
Arguments diffProp : simpl never.
Arguments turn : simpl never.
Arguments diffProps : simpl never.
Arguments propNames : simpl never.
Arguments loopFrom : simpl never.

(* ================================================================= *)
(** * Properties *)

(** ** Strings *)

Lemma lowerChar_upperChar (c : ascii) :
  Str.lowerChar (Str.upperChar c) = Str.lowerChar c.
Proof.
  destruct c as [[] [] [] [] [] [] [] []]; reflexivity.
Qed.

Lemma toLowerCase_toUpperCase (s : string) :
  Str.toLowerCase (Str.toUpperCase s) = Str.toLowerCase s.
Proof.
  unfold Str.toLowerCase, Str.toUpperCase.
  induction s as [|c s IH]; simpl.
  - reflexivity.
  - now rewrite lowerChar_upperChar, IH.
Qed.

Lemma lowerChar_idem (c : ascii) :
  Str.lowerChar (Str.lowerChar c) = Str.lowerChar c.
Proof.
  destruct c as [[] [] [] [] [] [] [] []]; reflexivity.
Qed.

Lemma toLowerCase_idem (s : string) :
  Str.toLowerCase (Str.toLowerCase s) = Str.toLowerCase s.
Proof.
  unfold Str.toLowerCase.
  induction s as [|c s IH]; simpl; [reflexivity|].
  now rewrite lowerChar_idem, IH.
Qed.

(** ** Object literals *)

Lemma hasOwn_In (p : dict) (k : string) :
  hasOwn p k = true <-> In k (keys p).
Proof.
  induction p as [|[k' v] p IH]; simpl.
  - split; [discriminate | tauto].
  - destruct (String.eqb_spec k' k) as [->|Hne].
    + tauto.
    + rewrite IH. split; [tauto | intros [E|H]; [contradiction | exact H]].
Qed.

Lemma getOwn_missing (p : dict) (k : string) :
  hasOwn p k = false -> getOwn p k = VUndefined.
Proof.
  induction p as [|[k' v] p IH]; simpl; [reflexivity|].
  destruct (k' =? k); [discriminate | exact IH].
Qed.

Lemma hasOwn_setOwn (p : dict) (k k' : string) (v : value) :
  hasOwn (setOwn p k v) k' = (k =? k') || hasOwn p k'.
Proof.
  induction p as [|[k0 v0] p IH]; simpl.
  - destruct (k =? k'); reflexivity.
  - destruct (String.eqb_spec k0 k) as [->|Hne]; simpl.
    + destruct (k =? k'); reflexivity.
    + rewrite IH. destruct (k0 =? k'), (k =? k'); reflexivity.
Qed.

Lemma getOwn_setOwn (p : dict) (k k' : string) (v : value) :
  getOwn (setOwn p k v) k' = if k =? k' then v else getOwn p k'.
Proof.
  induction p as [|[k0 v0] p IH]; simpl.
  - destruct (k =? k'); reflexivity.
  - destruct (String.eqb_spec k0 k) as [->|Hne]; simpl.
    + destruct (k =? k'); reflexivity.
    + rewrite IH.
      destruct (String.eqb_spec k0 k') as [->|Hne'];
        destruct (String.eqb_spec k k') as [->|Hne'']; congruence.
Qed.

Lemma hasOwn_copyOwn (p : dict) (ks : list string) (d : dict) (k : string) :
  hasOwn (copyOwn p ks d) k = hasOwn d k || existsb (fun k' => k' =? k) ks.
Proof.
  revert d. induction ks as [|k0 ks IH]; intros d; simpl.
  - now rewrite orb_false_r.
  - unfold copyOwn in *. simpl. rewrite IH, hasOwn_setOwn.
    destruct (k0 =? k), (hasOwn d k); reflexivity.
Qed.

Lemma getOwn_copyOwn (p : dict) (ks : list string) (d : dict) (k : string) :
  getOwn (copyOwn p ks d) k =
  if existsb (fun k' => k' =? k) ks then getOwn p k else getOwn d k.
Proof.
  revert d. induction ks as [|k0 ks IH]; intros d; simpl.
  - reflexivity.
  - unfold copyOwn in *. simpl. rewrite IH, getOwn_setOwn.
    destruct (String.eqb_spec k0 k) as [->|Hne]; simpl;
      destruct (existsb _ ks); reflexivity.
Qed.

Lemma existsb_keys (p : dict) (k : string) :
  existsb (fun k' => k' =? k) (keys p) = hasOwn p k.
Proof.
  induction p as [|[k' v] p IH]; simpl; [reflexivity|].
  rewrite IH. destruct (k' =? k); reflexivity.
Qed.

Lemma hasOwn_copy_all (p : dict) (k : string) :
  hasOwn (copyOwn p (keys p) []) k = hasOwn p k.
Proof. now rewrite hasOwn_copyOwn, existsb_keys. Qed.

Lemma getOwn_copy_all (p : dict) (k : string) :
  getOwn (copyOwn p (keys p) []) k = getOwn p k.
Proof.
  rewrite getOwn_copyOwn, existsb_keys.
  destruct (hasOwn p k) eqn:E; [reflexivity|].
  simpl. symmetry. now apply getOwn_missing.
Qed.

(** ** The store *)

Lemma assign_last (st : Store.store) (o : Store.object) (k : string) (v : value) :
  Store.assign (length st) k v (st ++ [o]) =
  st ++ [Store.Obj (Store.proto o) (setOwn (Store.own o) k v)].
Proof.
  induction st as [|x st IH]; simpl; [reflexivity | now rewrite IH].
Qed.

Lemma nth_error_old (st : Store.store) (o : Store.object) (l : nat) :
  l < length st -> nth_error (st ++ [o]) l = nth_error st l.
Proof. intros H. now apply nth_error_app1. Qed.

Lemma nth_error_new (st : Store.store) (o : Store.object) :
  nth_error (st ++ [o]) (length st) = Some o.
Proof. rewrite nth_error_app2, Nat.sub_diag by lia. reflexivity. Qed.

(** What [Store.overlay] computes on two object literals: one new
    object, whose prototype is the first literal and whose own
    properties are copies of those of the second. *)
Lemma overlay_plain (st : Store.store) (a b : Store.loc) (pa pb : dict) :
  Store.plain st a pa -> Store.plain st b pb ->
  Store.overlay a b st =
  (length st, st ++ [Store.Obj (Store.Proto a) (copyOwn pb (keys pb) [])]).
Proof.
  unfold Store.plain. intros Ha Hb.
  assert (Hlb : b < length st) by (apply nth_error_Some; congruence).
  unfold Store.overlay, Store.create, Store.alloc. f_equal.
  assert (Hin : Store.forIn (st ++ [Store.Obj (Store.Proto a) []]) b = keys pb).
  { unfold Store.forIn. rewrite length_app. simpl.
    rewrite Nat.add_1_r. simpl. rewrite nth_error_old, Hb by exact Hlb.
    simpl. apply app_nil_r. }
  rewrite Hin.
  assert (Hgen : forall ks d,
             (forall k, In k ks -> hasOwn pb k = true) ->
             fold_left
               (fun s key =>
                  if Store.hasOwnProperty s b key
                  then Store.assign (length st) key (Store.get s b key) s
                  else s)
               ks (st ++ [Store.Obj (Store.Proto a) d]) =
             st ++ [Store.Obj (Store.Proto a) (copyOwn pb ks d)]).
  { induction ks as [|k ks IH]; intros d Hks; simpl; [reflexivity|].
    assert (Hk : hasOwn pb k = true) by (apply Hks; now left).
    assert (Hhas : Store.hasOwnProperty
                     (st ++ [Store.Obj (Store.Proto a) d]) b k = true).
    { unfold Store.hasOwnProperty.
      rewrite nth_error_old, Hb by exact Hlb. exact Hk. }
    rewrite Hhas.
    assert (Hget : Store.get (st ++ [Store.Obj (Store.Proto a) d]) b k
                   = getOwn pb k).
    { unfold Store.get. rewrite length_app, Nat.add_1_r. simpl.
      rewrite nth_error_old, Hb by exact Hlb. simpl. now rewrite Hk. }
    rewrite Hget, assign_last. simpl.
    rewrite IH by (intros k' Hk'; apply Hks; now right).
    reflexivity. }
  apply Hgen. intros k Hk. now apply hasOwn_In.
Qed.

Lemma get_merged (st : Store.store) (a : Store.loc) (pa d : dict) (k : string) :
  Store.plain st a pa ->
  Store.get (st ++ [Store.Obj (Store.Proto a) d]) (length st) k =
  if hasOwn d k then getOwn d k else getOwn pa k.
Proof.
  unfold Store.plain. intros Ha.
  assert (Hla : a < length st) by (apply nth_error_Some; congruence).
  unfold Store.get. rewrite length_app, Nat.add_1_r. simpl.
  rewrite nth_error_new. simpl.
  destruct (hasOwn d k); [reflexivity|].
  destruct (length st) as [|n] eqn:E; [lia|]. simpl.
  rewrite nth_error_old, Ha by lia. simpl.
  destruct (hasOwn pa k) eqn:E'; [reflexivity|].
  symmetry. now apply getOwn_missing.
Qed.

Lemma forIn_merged (st : Store.store) (a : Store.loc) (pa d : dict) :
  Store.plain st a pa ->
  Store.forIn (st ++ [Store.Obj (Store.Proto a) d]) (length st) =
  keys d ++ filter (fun k => negb (hasOwn d k)) (keys pa).
Proof.
  unfold Store.plain. intros Ha.
  assert (Hla : a < length st) by (apply nth_error_Some; congruence).
  unfold Store.forIn. rewrite length_app, Nat.add_1_r. simpl.
  rewrite nth_error_new. simpl. f_equal.
  destruct (length st) as [|n] eqn:E; [lia|]. simpl.
  rewrite nth_error_old, Ha by lia. simpl.
  now rewrite app_nil_r.
Qed.

(** With enough fuel the search for a property does not depend on the
    fuel, and it does not see objects allocated later. *)
Lemma findF_more (st : Store.store) (f : nat) (l : Store.loc) (k : string) :
  Store.wf st -> l < f ->
  Store.findF (S f) st l k = Store.findF f st l k.
Proof.
  intros Hwf. revert l. induction f as [|f IH]; intros l Hl; [lia|].
  cbn [Store.findF].
  destruct (nth_error st l) as [o|] eqn:E; [|reflexivity].
  destruct (hasOwn (Store.own o) k); [reflexivity|].
  destruct (Store.proto o) as [q| |] eqn:Ep; try reflexivity.
  specialize (Hwf l o q E Ep).
  change (Store.findF (S f) st q k = Store.findF f st q k).
  apply IH. lia.
Qed.

Lemma findF_old (st : Store.store) (o : Store.object) (f : nat)
    (l : Store.loc) (k : string) :
  Store.wf st -> l < length st ->
  Store.findF f (st ++ [o]) l k = Store.findF f st l k.
Proof.
  intros Hwf. revert l. induction f as [|f IH]; intros l Hl; simpl.
  - reflexivity.
  - rewrite nth_error_old by exact Hl.
    destruct (nth_error st l) as [x|] eqn:E; [|reflexivity].
    destruct (hasOwn (Store.own x) k); [reflexivity|].
    destruct (Store.proto x) as [q| |] eqn:Ep; try reflexivity.
    apply IH. specialize (Hwf l x q E Ep). lia.
Qed.

Lemma find_old (st : Store.store) (o : Store.object) (l : Store.loc)
    (k : string) :
  Store.wf st -> l < length st ->
  Store.find (st ++ [o]) l k = Store.find st l k.
Proof.
  intros Hwf Hl. unfold Store.find. rewrite length_app, Nat.add_1_r.
  rewrite findF_old by assumption. now apply findF_more.
Qed.

(** [merge] returns what [Store.overlay] gives when the method
    [hasOwnProperty] of its second argument is the one of
    [Object.prototype] and that argument has no own [__proto__]. *)
Lemma merge_ordinary (st : Store.store) (a b : Store.loc) (ob : Store.object) :
  Store.wf st -> nth_error st b = Some ob ->
  Store.find st b "hasOwnProperty" = Store.Inherited ->
  hasOwn (Store.own ob) "__proto__" = false ->
  Store.merge a b st = Some (Store.overlay a b st).
Proof.
  intros Hwf Hb Hfind Hproto.
  assert (Hlb : b < length st) by (apply nth_error_Some; congruence).
  unfold Store.merge, Store.overlay, Store.create, Store.alloc.
  generalize (Store.forIn (st ++ [Store.Obj (Store.Proto a) []]) b).
  intros ks.
  assert (Hgen : forall d,
             fold_left
               (fun acc key =>
                  match acc with
                  | None => None
                  | Some s =>
                      match Store.callHasOwnProperty s b key with
                      | None => None
                      | Some true =>
                          Some (Store.put (length st) key (Store.get s b key) s)
                      | Some false => Some s
                      end
                  end)
               ks (Some (st ++ [Store.Obj (Store.Proto a) d])) =
             Some (fold_left
                     (fun s key =>
                        if Store.hasOwnProperty s b key
                        then Store.assign (length st) key (Store.get s b key) s
                        else s)
                     ks (st ++ [Store.Obj (Store.Proto a) d]))).
  { induction ks as [|k ks IH]; intros d; cbn [fold_left]; [reflexivity|].
    assert (Hhas : Store.hasOwnProperty
                     (st ++ [Store.Obj (Store.Proto a) d]) b k
                   = hasOwn (Store.own ob) k).
    { unfold Store.hasOwnProperty.
      now rewrite nth_error_old, Hb by exact Hlb. }
    assert (Hcall : Store.callHasOwnProperty
                      (st ++ [Store.Obj (Store.Proto a) d]) b k
                    = Some (hasOwn (Store.own ob) k)).
    { unfold Store.callHasOwnProperty.
      now rewrite find_old, Hfind, Hhas by assumption. }
    rewrite Hcall, Hhas. destruct (hasOwn (Store.own ob) k) eqn:Hk; [|apply IH].
    assert (Hne : (k =? "__proto__") = false).
    { apply String.eqb_neq. intros ->. congruence. }
    unfold Store.put. rewrite Hne, assign_last. apply IH. }
  now rewrite Hgen.
Qed.

Lemma merge_plain (st : Store.store) (a b : Store.loc) (pa pb : dict) :
  Store.plain st a pa -> Store.plain st b pb ->
  mergeable pb = true ->
  Store.merge a b st =
  Some (length st,
        st ++ [Store.Obj (Store.Proto a) (copyOwn pb (keys pb) [])]).
Proof.
  unfold Store.plain, mergeable. intros Ha Hb Hm.
  apply andb_prop in Hm. destruct Hm as [Hh Hp].
  apply negb_true_iff in Hh, Hp.
  assert (Hlb : b < length st) by (apply nth_error_Some; congruence).
  rewrite <- (overlay_plain Ha Hb).
  unfold Store.merge, Store.overlay, Store.create, Store.alloc.
  generalize (Store.forIn (st ++ [Store.Obj (Store.Proto a) []]) b).
  intros ks.
  assert (Hgen : forall d,
             fold_left
               (fun acc key =>
                  match acc with
                  | None => None
                  | Some s =>
                      match Store.callHasOwnProperty s b key with
                      | None => None
                      | Some true =>
                          Some (Store.put (length st) key (Store.get s b key) s)
                      | Some false => Some s
                      end
                  end)
               ks (Some (st ++ [Store.Obj (Store.Proto a) d])) =
             Some (fold_left
                     (fun s key =>
                        if Store.hasOwnProperty s b key
                        then Store.assign (length st) key (Store.get s b key) s
                        else s)
                     ks (st ++ [Store.Obj (Store.Proto a) d]))).
  { induction ks as [|k ks IH]; intros d; cbn [fold_left]; [reflexivity|].
    assert (Hcall : Store.callHasOwnProperty
                      (st ++ [Store.Obj (Store.Proto a) d]) b k
                    = Some (hasOwn pb k)).
    { unfold Store.callHasOwnProperty, Store.find, Store.hasOwnProperty.
      rewrite length_app, Nat.add_1_r. cbn [Store.findF].
      rewrite nth_error_old, Hb by exact Hlb.
      cbn [Store.own Store.proto]. now rewrite Hh. }
    assert (Hhas : Store.hasOwnProperty
                     (st ++ [Store.Obj (Store.Proto a) d]) b k
                   = hasOwn pb k).
    { unfold Store.hasOwnProperty.
      now rewrite nth_error_old, Hb by exact Hlb. }
    rewrite Hcall, Hhas. destruct (hasOwn pb k) eqn:Hk; [|apply IH].
    assert (Hne : (k =? "__proto__") = false).
    { apply String.eqb_neq. intros ->. congruence. }
    unfold Store.put. rewrite Hne, assign_last. apply IH. }
  now rewrite Hgen.
Qed.

Lemma not_In_hasOwn (p : dict) (k : string) :
  ~ In k (keys p) -> hasOwn p k = false.
Proof.
  intros H. destruct (hasOwn p k) eqn:E; [|reflexivity].
  apply hasOwn_In in E. contradiction.
Qed.

(** C6, as the code has it.  [merge(a, b)] on two attribute maps, the
    second of which has no key [hasOwnProperty] and no key
    [__proto__], returns a new object: no object of the store is
    changed (in particular neither [a] nor [b]); the keys a
    [for ... in] finds on the result are those of [a] and those of
    [b]; a key of [b] reads [b]'s value, and a key of [a] alone reads
    [a]'s. *)
Theorem merge_overlay (st : Store.store) (a b : Store.loc) (pa pb : dict) :
  Store.plain st a pa -> Store.plain st b pb ->
  ~ In "hasOwnProperty" (keys pb) -> ~ In "__proto__" (keys pb) ->
  exists merged st',
    Store.merge a b st = Some (merged, st') /\
    nth_error st merged = None /\
    (forall l o, nth_error st l = Some o -> nth_error st' l = Some o) /\
    Store.plain st' a pa /\ Store.plain st' b pb /\
    (forall k, In k (Store.forIn st' merged) <->
               In k (keys pa) \/ In k (keys pb)) /\
    (forall k, In k (keys pb) -> Store.get st' merged k = getOwn pb k) /\
    (forall k, In k (keys pa) -> ~ In k (keys pb) ->
               Store.get st' merged k = getOwn pa k).
Proof.
  intros Ha Hb Hh Hp.
  assert (Hm : mergeable pb = true).
  { unfold mergeable. now rewrite !not_In_hasOwn. }
  assert (Hold : forall l o, nth_error st l = Some o ->
                 nth_error (st ++ [Store.Obj (Store.Proto a)
                                     (copyOwn pb (keys pb) [])]) l
                 = Some o).
  { intros l o H. rewrite nth_error_old; [exact H|].
    apply nth_error_Some. congruence. }
  eexists _, _. split; [apply (merge_plain Ha Hb Hm)|].
  split; [apply nth_error_None; lia|].
  split; [exact Hold|].
  split; [apply Hold, Ha|].
  split; [apply Hold, Hb|].
  split; [|split].
  - intros k. rewrite (forIn_merged _ Ha), in_app_iff, filter_In.
    rewrite hasOwn_copy_all.
    rewrite <- (hasOwn_In (copyOwn pb (keys pb) []) k), hasOwn_copy_all.
    rewrite <- (hasOwn_In pb k).
    destruct (hasOwn pb k); simpl; intuition congruence.
  - intros k Hk. rewrite (get_merged _ _ Ha), hasOwn_copy_all.
    apply hasOwn_In in Hk. rewrite Hk. apply getOwn_copy_all.
  - intros k _ Hk. rewrite (get_merged _ _ Ha), hasOwn_copy_all.
    now rewrite not_In_hasOwn.
Qed.

(** [merge] applied to two maps that share a key. *)
Lemma merge_overlay_witness :
  let pa := [("id", VStr "x"); ("class", VStr "a")] in
  let pb := [("class", VStr "b"); ("title", VStr "t")] in
  let st := [Store.Obj Store.ObjectPrototype pa;
             Store.Obj Store.ObjectPrototype pb] in
  exists merged st',
    Store.merge 0 1 st = Some (merged, st') /\
    nth_error st merged = None /\
    (forall l o, nth_error st l = Some o -> nth_error st' l = Some o) /\
    Store.plain st' 0 pa /\ Store.plain st' 1 pb /\
    (forall k, In k (Store.forIn st' merged) <->
               In k (keys pa) \/ In k (keys pb)) /\
    (forall k, In k (keys pb) -> Store.get st' merged k = getOwn pb k) /\
    (forall k, In k (keys pa) -> ~ In k (keys pb) ->
               Store.get st' merged k = getOwn pa k).
Proof.
  apply (@merge_overlay
           [Store.Obj Store.ObjectPrototype
                      [("id", VStr "x"); ("class", VStr "a")];
            Store.Obj Store.ObjectPrototype
                      [("class", VStr "b"); ("title", VStr "t")]]
           0 1
           [("id", VStr "x"); ("class", VStr "a")]
           [("class", VStr "b"); ("title", VStr "t")]).
  - reflexivity.
  - reflexivity.
  - simpl. intuition discriminate.
  - simpl. intuition discriminate.
Defined.

(** C6 as stated fails.  When the second map has a key
    [hasOwnProperty], the test of the loop calls a string and [merge]
    raises; and a key [__proto__] of the second map is not a key of
    the result. *)
Lemma merge_shadowed_counterexample :
  ~ (forall st a b pa pb,
        Store.plain st a pa -> Store.plain st b pb ->
        exists merged st', Store.merge a b st = Some (merged, st')) /\
  ~ (forall st a b pa pb merged st',
        Store.plain st a pa -> Store.plain st b pb ->
        Store.merge a b st = Some (merged, st') ->
        forall k, In k (keys pb) -> In k (Store.forIn st' merged)).
Proof.
  split.
  - intros H.
    destruct (H [Store.Obj Store.ObjectPrototype [];
                 Store.Obj Store.ObjectPrototype
                           [("hasOwnProperty", VStr "x")]]
                0 1 [] [("hasOwnProperty", VStr "x")] eq_refl eq_refl)
      as (merged & st' & E).
    discriminate E.
  - intros H.
    specialize (H [Store.Obj Store.ObjectPrototype [("id", VStr "x")];
                   Store.Obj Store.ObjectPrototype
                             [("__proto__", VStr "y")]]
                  0 1 [("id", VStr "x")] [("__proto__", VStr "y")]
                  _ _ eq_refl eq_refl eq_refl "__proto__"
                  (or_introl eq_refl)).
    simpl in H. intuition discriminate.
Qed.

(** ** The constructor [h] *)

Lemma h_children (tag : string) (attrs : option dict) (meta : option metadata)
    (args : list harg) :
  children (h tag attrs meta args) = fold_left (hStep meta) args [].
Proof. reflexivity. Qed.

Lemma hStep_nodes (meta : option metadata) (l acc : list vnode) :
  fold_left (hStep meta) (List.map ANode l) acc = acc ++ l.
Proof.
  revert acc. induction l as [|v l IH]; intros acc; simpl.
  - now rewrite app_nil_r.
  - rewrite IH, <- app_assoc. reflexivity.
Qed.

(** C8. An array argument is spliced into the children: passing
    [[childA, childB]] gives the same children as passing [childA] and
    [childB]; the same holds for an array of any length. *)
Theorem h_array_spliced (tag : string) (attrs : option dict)
    (meta : option metadata) :
  (forall childA childB,
      children (h tag attrs meta [AArray [childA; childB]]) =
      children (h tag attrs meta [ANode childA; ANode childB])) /\
  (forall l,
      children (h tag attrs meta [AArray l]) =
      children (h tag attrs meta (List.map ANode l)) /\
      children (h tag attrs meta [AArray l]) = l).
Proof.
  split.
  - reflexivity.
  - intros l. rewrite !h_children, hStep_nodes. simpl. auto.
Qed.

(** C3. [h("div", {}, meta, "a", "b")] has two text leaves with values
    ["a"] and ["b"], but its own [val] is the join of the two child
    objects converted to strings, not ["ab"]. *)
Theorem h_val_joins_objects (meta : option metadata) :
  let n := h "div" (Some []) meta [AString "a"; AString "b"] in
  List.map type (children n) = ["#text"; "#text"] /\
  List.map val (children n) = ["a"; "b"] /\
  val n = "[object Object][object Object]" /\
  val n <> String.concat EmptyString (List.map val (children n)).
Proof.
  simpl. repeat split. discriminate.
Qed.

(** ** The materializer *)

Lemma vnode_ind (P : vnode -> Prop) :
  (forall t v p c m, Forall P c -> P (VNode t v p c m)) ->
  forall x, P x.
Proof.
  intros step. fix IH 1. intros [t v p c m]. apply step.
  induction c as [|y c IHc]; constructor; [apply IH | exact IHc].
Qed.

Lemma appendChild_all (cs : list dnode) (t : string)
    (a : list (string * string)) (l : list (string * handler))
    (c : list dnode) :
  fold_left Dom.appendChild cs (DElem t a l c) = DElem t a l (c ++ cs).
Proof.
  revert c. induction cs as [|x cs IH]; intros c; simpl.
  - now rewrite app_nil_r.
  - rewrite IH, <- app_assoc. reflexivity.
Qed.

(** [createNodeFromVNode] builds the live subtree [rendered] and calls
    neither the dispatcher nor [addEventListener]. *)
Lemma createNodeFromVNode_rendered (events : string -> bool) (v : vnode) :
  createNodeFromVNode events v = (rendered v, []).
Proof.
  induction v as [t s p c m IH] using vnode_ind. simpl.
  destruct (t =? "#text"); [reflexivity|].
  unfold Dom.createElement. rewrite appendChild_all. simpl.
  assert (H : List.map (createNodeFromVNode events) c =
              List.map (fun x => (rendered x, @nil event)) c).
  { induction IH as [|x c Hx _ IHc]; simpl; [reflexivity|].
    now rewrite Hx, IHc. }
  rewrite H, !map_map. simpl. f_equal.
  clear. induction c as [|x c IHc]; simpl; [reflexivity | exact IHc].
Qed.

Lemma rendered_listenerFree (v : vnode) : listenerFree (rendered v) = true.
Proof.
  induction v as [t s p c m IH] using vnode_ind. simpl.
  destruct (t =? "#text"); simpl; [reflexivity|].
  induction IH as [|x c Hx _ IHc]; simpl; [reflexivity|].
  now rewrite Hx.
Qed.

(** C2.  Materializing a node attaches no listener and registers
    nothing on the dispatcher, whatever handlers the node declares: a
    node with a [click] handler comes out bare, although
    [addEventListeners] would serve its listeners if it were given
    them. *)
Theorem createNodeFromVNode_drops_listeners (events : string -> bool) :
  (forall vnode,
      snd (createNodeFromVNode events vnode) = [] /\
      listenerFree (fst (createNodeFromVNode events vnode)) = true) /\
  let vnode := VNode "button" EmptyString [] [] (Meta true [("click", ["save"])]) in
  createNodeFromVNode events vnode = (DElem "BUTTON" [] [] [], []) /\
  addEventListeners events (DElem "BUTTON" [] [] [])
                    (Some (eventListeners (meta vnode))) <>
  (DElem "BUTTON" [] [] [], []).
Proof.
  split.
  - intros vnode. rewrite createNodeFromVNode_rendered. simpl.
    split; [reflexivity | apply rendered_listenerFree].
  - simpl. split; [reflexivity|].
    destruct (events "click"); discriminate.
Qed.

Lemma rendered_attrFree (v : vnode) : attrFree (rendered v) = true.
Proof.
  induction v as [t s p c m IH] using vnode_ind. simpl.
  destruct (t =? "#text"); simpl; [reflexivity|].
  induction IH as [|x c Hx _ IHc]; simpl; [reflexivity|].
  now rewrite Hx.
Qed.

(** C10. Materializing an element node gives an element without
    attributes, whatever the node's [props]; the whole new subtree is
    free of attributes. *)
Theorem createNodeFromVNode_no_attributes (events : string -> bool)
    (vnode : vnode) :
  type vnode <> "#text" ->
  let el := fst (createNodeFromVNode events vnode) in
  (exists childNodes,
      el = DElem (Str.toUpperCase (type vnode)) [] [] childNodes) /\
  extractAttrs el = [] /\
  attrFree el = true.
Proof.
  intros Ht. rewrite createNodeFromVNode_rendered. simpl.
  split; [|split].
  - destruct vnode as [t s p c m]. simpl in *.
    apply String.eqb_neq in Ht. rewrite Ht. eauto.
  - destruct vnode as [t s p c m]. simpl in *.
    apply String.eqb_neq in Ht. rewrite Ht. reflexivity.
  - apply rendered_attrFree.
Qed.

Lemma createNodeFromVNode_no_attributes_witness :
  let vnode := h "a" (Some [("href", VStr "/home"); ("class", VStr "nav")])
                 None [AString "Home"] in
  let el := fst (createNodeFromVNode (fun _ => false) vnode) in
  (exists childNodes,
      el = DElem (Str.toUpperCase (type vnode)) [] [] childNodes) /\
  extractAttrs el = [] /\
  attrFree el = true.
Proof.
  apply (@createNodeFromVNode_no_attributes (fun _ => false)
           (h "a" (Some [("href", VStr "/home"); ("class", VStr "nav")])
              None [AString "Home"])).
  simpl. discriminate.
Defined.

(** ** Attributes of a live element *)

Lemma getAttr_setAttr (a : list (string * string)) (k k' v : string) :
  getAttr (Dom.setAttr a k v) k' = if k =? k' then Some v else getAttr a k'.
Proof.
  induction a as [|[k0 v0] a IH]; simpl.
  - reflexivity.
  - destruct (String.eqb_spec k0 k) as [->|Hne]; simpl.
    + now destruct (k =? k').
    + rewrite IH.
      destruct (String.eqb_spec k0 k') as [->|];
        destruct (String.eqb_spec k k') as [->|]; congruence.
Qed.

Lemma getAttr_delAttr (a : list (string * string)) (k k' : string) :
  getAttr (Dom.delAttr a k) k' = if k =? k' then None else getAttr a k'.
Proof.
  induction a as [|[k0 v0] a IH]; simpl.
  - now destruct (k =? k').
  - destruct (String.eqb_spec k0 k) as [->|Hne]; simpl.
    + rewrite IH. destruct (String.eqb_spec k k'); reflexivity.
    + rewrite IH.
      destruct (String.eqb_spec k0 k') as [->|];
        destruct (String.eqb_spec k k') as [->|]; congruence.
Qed.

Lemma getAttr_None (a : list (string * string)) (k : string) :
  getAttr a k = None <-> ~ In k (List.map fst a).
Proof.
  induction a as [|[k0 v0] a IH]; simpl.
  - tauto.
  - destruct (String.eqb_spec k0 k) as [->|Hne].
    + split; [discriminate | intros H; exfalso; apply H; now left].
    + rewrite IH. tauto.
Qed.

Lemma names_setAttr (a : list (string * string)) (k v : string) :
  List.map fst (Dom.setAttr a k v) =
  if isSome (getAttr a k) then List.map fst a else List.map fst a ++ [k].
Proof.
  induction a as [|[k0 v0] a IH]; simpl; [reflexivity|].
  destruct (k0 =? k); simpl; [reflexivity|].
  rewrite IH. now destruct (getAttr a k).
Qed.

Lemma NoDup_setAttr (a : list (string * string)) (k v : string) :
  NoDup (List.map fst a) -> NoDup (List.map fst (Dom.setAttr a k v)).
Proof.
  intros H. rewrite names_setAttr.
  destruct (getAttr a k) eqn:E; simpl; [exact H|].
  apply getAttr_None in E.
  apply NoDup_app; [exact H | repeat constructor; simpl; tauto |].
  intros x Hx [<-|[]]. contradiction.
Qed.

Lemma NoDup_delAttr (a : list (string * string)) (k : string) :
  NoDup (List.map fst a) -> NoDup (List.map fst (Dom.delAttr a k)).
Proof.
  induction a as [|[k0 v0] a IH]; simpl; intros H; [constructor|].
  inversion H as [|? ? Hk Hnd]; subst.
  destruct (k0 =? k); simpl; [now apply IH|].
  constructor; [|now apply IH].
  intros Hin. apply Hk. unfold Dom.delAttr in Hin.
  apply in_map_iff in Hin. destruct Hin as ([k1 v1] & E & Hin).
  apply filter_In in Hin. apply in_map_iff. exists (k1, v1). tauto.
Qed.

Lemma extractAttrs_fold (a : list (string * string)) (d : dict) (k : string) :
  NoDup (List.map fst a) ->
  getOwn (fold_left (fun attrs kv => setOwn attrs (fst kv) (VStr (snd kv)))
                    a d) k =
  match getAttr a k with
  | Some s => VStr s
  | None => getOwn d k
  end.
Proof.
  revert d. induction a as [|[k0 v0] a IH]; intros d H; simpl.
  - reflexivity.
  - inversion H as [|? ? Hk Hnd]; subst. rewrite IH by exact Hnd.
    rewrite getOwn_setOwn.
    destruct (String.eqb_spec k0 k) as [->|Hne]; [|reflexivity].
    apply getAttr_None in Hk. now rewrite Hk.
Qed.

Lemma extractAttrs_get (n : dnode) (k : string) :
  NoDup (List.map fst (Dom.attributes n)) ->
  getOwn (extractAttrs n) k = attrValue (attributeNamed n k).
Proof.
  destruct n as [s|t a l c]; simpl; intros H; [reflexivity|].
  unfold attributeNamed. simpl. rewrite extractAttrs_fold by exact H.
  now destruct (getAttr a k).
Qed.

Lemma extractAttrs_has_fold (a : list (string * string)) (d : dict)
    (k : string) :
  hasOwn (fold_left (fun attrs kv => setOwn attrs (fst kv) (VStr (snd kv)))
                    a d) k =
  hasOwn d k || isSome (getAttr a k).
Proof.
  revert d. induction a as [|[k0 v0] a IH]; intros d; simpl.
  - now rewrite orb_false_r.
  - rewrite IH, hasOwn_setOwn. simpl.
    destruct (k0 =? k); simpl.
    + now rewrite orb_true_r.
    + reflexivity.
Qed.

Lemma extractAttrs_has (n : dnode) (k : string) :
  hasOwn (extractAttrs n) k = isSome (attributeNamed n k).
Proof.
  destruct n as [s|t a l c]; [reflexivity|].
  unfold attributeNamed. simpl. now rewrite extractAttrs_has_fold.
Qed.

Lemma hasAttribute_removeAttribute (n : dnode) (k k' : string) :
  hasAttribute (Dom.removeAttribute n k) k' =
  if Str.toLowerCase k =? Str.toLowerCase k' then false else hasAttribute n k'.
Proof.
  unfold hasAttribute. destruct n as [s|t a l c]; simpl.
  - now destruct (Str.toLowerCase k =? Str.toLowerCase k').
  - rewrite getAttr_delAttr.
    now destruct (Str.toLowerCase k =? Str.toLowerCase k').
Qed.

Lemma hasAttribute_setAttribute (n : dnode) (k k' : string) (v : value) :
  Str.toLowerCase k <> Str.toLowerCase k' ->
  hasAttribute (Dom.setAttribute n k v) k' = hasAttribute n k'.
Proof.
  intros H. unfold hasAttribute. destruct n as [s|t a l c]; simpl.
  - reflexivity.
  - rewrite getAttr_setAttr. apply String.eqb_neq in H. now rewrite H.
Qed.

(** ** The attribute differ *)

Lemma fold_left_invariant (A B : Type) (f : A -> B -> A) (I : A -> Prop)
    (l : list B) (a : A) :
  I a -> (forall x b, In b l -> I x -> I (f x b)) -> I (fold_left f l a).
Proof.
  revert a. induction l as [|b l IH]; intros a Ha Hstep; simpl.
  - exact Ha.
  - apply IH.
    + apply Hstep; [now left | exact Ha].
    + intros x b' Hb'. apply Hstep. now right.
Qed.

Lemma allPropsOf_eq (nodeProps vnodeProps : dict) :
  allPropsOf nodeProps vnodeProps =
  (2, propStore nodeProps vnodeProps ++
      [Store.Obj (Store.Proto 0) (copyOwn vnodeProps (keys vnodeProps) [])]).
Proof.
  unfold allPropsOf.
  apply (@overlay_plain (propStore nodeProps vnodeProps) 0 1
           nodeProps vnodeProps); reflexivity.
Qed.

(** On maps as the differ has them, [merge] returns the object that
    [diffProps] goes through. *)
Lemma allPropsOf_merge (nodeProps vnodeProps : dict) :
  mergeable vnodeProps = true ->
  Store.merge 0 1 (propStore nodeProps vnodeProps) =
  Some (allPropsOf nodeProps vnodeProps).
Proof.
  intros H. rewrite allPropsOf_eq.
  apply (@merge_plain (propStore nodeProps vnodeProps) 0 1
           nodeProps vnodeProps); [reflexivity | reflexivity | exact H].
Qed.

Lemma allProps_get (nodeProps vnodeProps : dict) (k : string) :
  let allProps := allPropsOf nodeProps vnodeProps in
  Store.get (snd allProps) (fst allProps) k =
  mergedValue nodeProps vnodeProps k.
Proof.
  cbv zeta. rewrite allPropsOf_eq. cbn [fst snd].
  change 2 with (length (propStore nodeProps vnodeProps)).
  rewrite (@get_merged _ 0 nodeProps) by reflexivity.
  unfold mergedValue. now rewrite hasOwn_copy_all, getOwn_copy_all.
Qed.

Lemma allProps_forIn (nodeProps vnodeProps : dict) (k : string) :
  let allProps := allPropsOf nodeProps vnodeProps in
  In k (Store.forIn (snd allProps) (fst allProps)) <->
  In k (keys nodeProps) \/ In k (keys vnodeProps).
Proof.
  cbv zeta. rewrite allPropsOf_eq. cbn [fst snd].
  change 2 with (length (propStore nodeProps vnodeProps)).
  rewrite (@forIn_merged _ 0 nodeProps) by reflexivity.
  rewrite in_app_iff, filter_In, hasOwn_copy_all.
  rewrite <- (hasOwn_In (copyOwn vnodeProps (keys vnodeProps) []) k).
  rewrite hasOwn_copy_all, <- (hasOwn_In vnodeProps k).
  destruct (hasOwn vnodeProps k); simpl; intuition congruence.
Qed.

Section DiffProps.

Variable directives : string -> option hook.
Variable specialDirectives : string -> bool.
Variables nodeProps vnodeProps : dict.
Variable vnode : vnode.

Let allProps := allPropsOf nodeProps vnodeProps.
Let step := diffProp directives specialDirectives
                     nodeProps vnodeProps vnode allProps.

Local Abbreviation removesK :=
  (removes directives specialDirectives vnodeProps).
Local Abbreviation turnK :=
  (turn directives specialDirectives nodeProps vnodeProps vnode).

Lemma step_turn (node : dnode) (t : trace) (k : string) :
  step (node, t) k = (fst (turnK node k), t ++ snd (turnK node k)).
Proof.
  unfold turn, step, diffProp.
  destruct (negb (truthy (getOwn vnodeProps k))
            || isSome (directives k) || specialDirectives k).
  - destruct (directives k); simpl; [|reflexivity].
    now rewrite <- app_assoc.
  - destruct (negb (truthy (getOwn nodeProps k))
              || negb (strictEq (getOwn nodeProps k) (getOwn vnodeProps k)));
      simpl; [reflexivity | now rewrite app_nil_r].
Qed.

Lemma turn_removes (node : dnode) (k : string) :
  removesK k = true ->
  turnK node k =
  match directives k with
  | Some run =>
      let v := mergedValue nodeProps vnodeProps k in
      (Dom.removeAttribute (run node v vnode) k,
       [Directive k node v vnode; RemoveAttribute (run node v vnode) k])
  | None => (Dom.removeAttribute node k, [RemoveAttribute node k])
  end.
Proof.
  unfold removes, turn; fold allProps; fold step; unfold step, diffProp. intros ->.
  destruct (directives k); [|reflexivity].
  unfold allProps. now rewrite allProps_get.
Qed.

Lemma turn_keeps (node : dnode) (k : string) :
  removesK k = false ->
  turnK node k = (node, []) \/
  turnK node k = (Dom.setAttribute node k (getOwn vnodeProps k),
                 [SetAttribute node k (getOwn vnodeProps k)]).
Proof.
  unfold removes, turn; fold allProps; fold step; unfold step, diffProp. intros ->.
  destruct (negb (truthy (getOwn nodeProps k))
            || negb (strictEq (getOwn nodeProps k) (getOwn vnodeProps k)));
    [right | left]; reflexivity.
Qed.

Lemma fold_step_trace (ks : list string) (node : dnode) (t : trace) :
  fold_left step ks (node, t) =
  (fst (fold_left step ks (node, [])),
   t ++ snd (fold_left step ks (node, []))).
Proof.
  revert node t. induction ks as [|k ks IH]; intros node t; cbn [fold_left].
  - cbn [fst snd]. now rewrite app_nil_r.
  - rewrite step_turn, IH. rewrite (step_turn node []). cbn [app].
    rewrite (IH _ (snd (turnK node k))). cbn [fst snd].
    now rewrite app_assoc.
Qed.

(** The trace of [diffProps] around the turn of one key. *)
Lemma diffProps_at_key (node : dnode) (k : string) :
  In k (keys nodeProps) \/ In k (keys vnodeProps) ->
  exists t1 el t2,
    snd (diffProps directives specialDirectives
                   node nodeProps vnodeProps vnode) =
    t1 ++ snd (turnK el k) ++ t2.
Proof.
  intros Hk. apply allProps_forIn in Hk. fold allProps in Hk.
  unfold diffProps. fold allProps. fold step.
  destruct (in_split _ _ Hk) as (l1 & l2 & ->).
  rewrite fold_left_app. cbn [fold_left].
  destruct (fold_left step l1 (node, [])) as [el t1].
  rewrite step_turn, fold_step_trace. cbn [fst snd].
  eexists t1, el, _. now rewrite app_assoc.
Qed.

(** Every event of [diffProps] comes from the turn of some key. *)
Lemma diffProps_events (node : dnode) (e : event) :
  In e (snd (diffProps directives specialDirectives
                       node nodeProps vnodeProps vnode)) ->
  exists el k, In e (snd (turnK el k)).
Proof.
  unfold diffProps. fold allProps. fold step.
  generalize (Store.forIn (snd allProps) (fst allProps)). intros ks.
  apply (fold_left_invariant step
           (fun acc => In e (snd acc) -> exists el k, In e (snd (turnK el k)))).
  - simpl. tauto.
  - intros [n t] k _ IH. rewrite step_turn. simpl.
    rewrite in_app_iff. intros [H|H]; [now apply IH | eauto].
Qed.

Lemma turn_events (el : dnode) (k : string) (e : event) :
  In e (snd (turnK el k)) ->
  (removesK k = true /\
   ((exists x, e = RemoveAttribute x k) \/
    (exists v, e = Directive k el v vnode))) \/
  (removesK k = false /\ e = SetAttribute el k (getOwn vnodeProps k)).
Proof.
  destruct (removesK k) eqn:R.
  - rewrite turn_removes by exact R. left. split; [reflexivity|].
    destruct (directives k); simpl in *.
    + destruct H as [<-|[<-|[]]]; eauto.
    + destruct H as [<-|[]]; eauto.
  - destruct (@turn_keeps el k R) as [-> | ->]; simpl; [tauto|].
    intros [<-|[]]. right. auto.
Qed.

Lemma diffProps_not_structural (node : dnode) (e : event) :
  In e (snd (diffProps directives specialDirectives
                       node nodeProps vnodeProps vnode)) ->
  structural e = false.
Proof.
  intros H. destruct (@diffProps_events _ _ H) as (el & k & Hin).
  destruct (@turn_events _ _ _ Hin)
    as [[_ [[x ->]|[v ->]]] | [_ ->]]; reflexivity.
Qed.

(** While no key of the loop names a directive, the child list of the
    element is not touched, whatever the hooks of the registry do. *)
Lemma diffProps_childNodes (node : dnode) :
  (forall k, In k (propNames nodeProps vnodeProps) -> directives k = None) ->
  Dom.childNodes (fst (diffProps directives specialDirectives
                                 node nodeProps vnodeProps vnode)) =
  Dom.childNodes node.
Proof.
  intros Hno. unfold diffProps. fold allProps. fold step.
  unfold propNames in Hno. fold allProps in Hno.
  apply (fold_left_invariant step
           (fun acc => Dom.childNodes (fst acc) = Dom.childNodes node)).
  - reflexivity.
  - intros [n t] k Hk IH. rewrite step_turn. simpl in *. rewrite <- IH.
    destruct (removesK k) eqn:R.
    + rewrite turn_removes by exact R. rewrite (Hno k Hk).
      now destruct n.
    + destruct (@turn_keeps n k R) as [-> | ->]; simpl;
        [reflexivity | now destruct n].
Qed.

Local Abbreviation loopK :=
  (loopFrom directives specialDirectives nodeProps vnodeProps vnode).

Lemma diffProps_loop (node : dnode) :
  diffProps directives specialDirectives node nodeProps vnodeProps vnode =
  loopK (propNames nodeProps vnodeProps) (node, []).
Proof. reflexivity. Qed.

Lemma loop_app (l1 l2 : list string) (acc : dnode * trace) :
  loopK (l1 ++ l2) acc = loopK l2 (loopK l1 acc).
Proof. unfold loopFrom. apply fold_left_app. Qed.

Lemma loop_cons (k : string) (l : list string) (el : dnode) (t : trace) :
  loopK (k :: l) (el, t) =
  loopK l (fst (turnK el k), t ++ snd (turnK el k)).
Proof.
  unfold loopFrom. cbn [fold_left]. fold allProps. fold step.
  now rewrite step_turn.
Qed.

Lemma turn_removal (el : dnode) (k : string) :
  removesK k = true ->
  turnK el k = removal directives vnode el k
                       (mergedValue nodeProps vnodeProps k).
Proof.
  intros R. rewrite turn_removes by exact R. unfold removal.
  now destruct (directives k).
Qed.

Lemma removal_absent (el : dnode) (k : string) (v : value) :
  hasAttribute (fst (removal directives vnode el k v)) k = false.
Proof.
  unfold removal.
  destruct (directives k); cbn [fst];
    now rewrite hasAttribute_removeAttribute, String.eqb_refl.
Qed.

(** Once the attribute is absent it stays absent, as long as the keys
    still to come name no directive and those that are spelled like
    [k], up to letter case, take the removing branch. *)
Lemma loop_keeps_absent (k : string) (ks : list string) (el : dnode)
    (t : trace) :
  (forall k', In k' ks ->
     directives k' = None /\
     (Str.toLowerCase k' = Str.toLowerCase k -> removesK k' = true)) ->
  hasAttribute el k = false ->
  hasAttribute (fst (loopK ks (el, t))) k = false.
Proof.
  revert el t. induction ks as [|k0 ks IH]; intros el t Hks Habs.
  - exact Habs.
  - rewrite loop_cons. apply IH.
    + intros k' Hk'. apply Hks. now right.
    + destruct (Hks k0 (or_introl eq_refl)) as [Hd Hr].
      destruct (removesK k0) eqn:R.
      * rewrite turn_removes by exact R. rewrite Hd. cbn [fst].
        rewrite hasAttribute_removeAttribute.
        now destruct (Str.toLowerCase k0 =? Str.toLowerCase k).
      * destruct (@turn_keeps el k0 R) as [-> | ->]; cbn [fst];
          [exact Habs|].
        rewrite hasAttribute_setAttribute; [exact Habs|].
        intros E. specialize (Hr E). congruence.
Qed.

(** The run of [diffProps] around the turn of a key that takes the
    removing branch: the loop reaches the key with some element, the
    hook of a directive runs on that element, the attribute is removed
    from the element the hook leaves, and the loop goes on from there
    to the element [diffProps] returns. *)
Lemma diffProps_at_removal (node : dnode) (k : string) :
  In k (propNames nodeProps vnodeProps) ->
  removesK k = true ->
  exists before after,
    propNames nodeProps vnodeProps = before ++ k :: after /\
    let reached := loopK before (node, []) in
    let r := removal directives vnode (fst reached) k
                     (mergedValue nodeProps vnodeProps k) in
    diffProps directives specialDirectives node nodeProps vnodeProps vnode =
    loopK after (fst r, snd reached ++ snd r) /\
    hasAttribute (fst r) k = false /\
    ((forall k', In k' after ->
        directives k' = None /\
        (Str.toLowerCase k' = Str.toLowerCase k -> removesK k' = true)) ->
     hasAttribute
       (fst (diffProps directives specialDirectives
                       node nodeProps vnodeProps vnode)) k = false).
Proof.
  intros Hk R. destruct (in_split _ _ Hk) as (before & after & E).
  exists before, after. split; [exact E|]. cbv zeta.
  assert (Hrun : diffProps directives specialDirectives
                           node nodeProps vnodeProps vnode =
                 loopK after
                   (fst (removal directives vnode
                           (fst (loopK before (node, []))) k
                           (mergedValue nodeProps vnodeProps k)),
                    snd (loopK before (node, [])) ++
                    snd (removal directives vnode
                           (fst (loopK before (node, []))) k
                           (mergedValue nodeProps vnodeProps k)))).
  { rewrite diffProps_loop, E, loop_app.
    rewrite (surjective_pairing (loopK before (node, []))) at 1.
    rewrite loop_cons. now rewrite turn_removal by exact R. }
  split; [exact Hrun|]. split; [apply removal_absent|].
  intros Hafter. rewrite Hrun.
  apply loop_keeps_absent; [exact Hafter | apply removal_absent].
Qed.

Lemma removes_missing (k : string) :
  ~ In k (keys vnodeProps) -> removesK k = true.
Proof.
  intros H. unfold removes.
  now rewrite (getOwn_missing _ _ (not_In_hasOwn _ _ H)).
Qed.

End DiffProps.

Lemma hasOwn_withoutKey (p : dict) (k k' : string) :
  hasOwn (withoutKey p k) k' = negb (k =? k') && hasOwn p k'.
Proof.
  unfold withoutKey. induction p as [|[k0 v0] p IH]; simpl.
  - now rewrite andb_false_r.
  - destruct (String.eqb_spec k0 k) as [->|Hne]; simpl.
    + rewrite IH. destruct (String.eqb_spec k k'); simpl; reflexivity.
    + rewrite IH.
      destruct (String.eqb_spec k0 k') as [->|]; simpl; [|reflexivity].
      destruct (String.eqb_spec k k') as [->|]; [contradiction | reflexivity].
Qed.

Lemma getOwn_withoutKey (p : dict) (k k' : string) :
  getOwn (withoutKey p k) k' = if k =? k' then VUndefined else getOwn p k'.
Proof.
  unfold withoutKey. induction p as [|[k0 v0] p IH]; simpl.
  - now destruct (k =? k').
  - destruct (String.eqb_spec k0 k) as [->|Hne]; simpl.
    + rewrite IH. destruct (String.eqb_spec k k'); reflexivity.
    + rewrite IH.
      destruct (String.eqb_spec k0 k') as [->|]; [|reflexivity].
      destruct (String.eqb_spec k k') as [->|]; [contradiction | reflexivity].
Qed.

Lemma propNames_In (nodeProps vnodeProps : dict) (k : string) :
  In k (propNames nodeProps vnodeProps) <->
  In k (keys nodeProps) \/ In k (keys vnodeProps).
Proof. apply allProps_forIn. Qed.



(** The run of the example above: the hook writes the desired value
    into [style], and [m-show] and [id] are removed. *)
Example diffProps_run_with_directive :
  let node := DElem "DIV" [("m-show", "old"); ("id", "x")] [] [] in
  let vnodeProps := [("m-show", VStr "new")] in
  let vnode := h "div" (Some vnodeProps) None [] in
  diffProps showDirective (fun _ => false)
            node (extractAttrs node) vnodeProps vnode =
  (DElem "DIV" [("style", "new")] [] [],
   [Directive "m-show" node (VStr "new") vnode;
    RemoveAttribute
      (DElem "DIV" [("m-show", "old"); ("id", "x"); ("style", "new")] [] [])
      "m-show";
    RemoveAttribute (DElem "DIV" [("id", "x"); ("style", "new")] [] []) "id"]).
Proof. reflexivity. Qed.


Lemma removes_withoutKey (directives : string -> option hook)
    (specialDirectives : string -> bool) (vnodeProps : dict) (k k' : string) :
  removes directives specialDirectives vnodeProps k' = true ->
  removes directives specialDirectives (withoutKey vnodeProps k) k' = true.
Proof.
  unfold removes. rewrite getOwn_withoutKey.
  now destruct (k =? k').
Qed.

(** With no directive in play, an attribute spelled like [k] that no
    key asks for is absent after the pass, whether it was there
    before or not. *)
Lemma diffProps_leaves_absent
    (directives : string -> option hook) (specialDirectives : string -> bool)
    (node : dnode) (vnodeProps : dict) (vnode : vnode) (k : string) :
  (forall k', directives k' = None) ->
  (forall k', Str.toLowerCase k' = Str.toLowerCase k ->
              removes directives specialDirectives vnodeProps k' = true) ->
  hasAttribute
    (fst (diffProps directives specialDirectives
                    node (extractAttrs node) vnodeProps vnode)) k = false.
Proof.
  intros Hd Hr.
  destruct (hasAttribute node k) eqn:Hhas.
  - assert (Hin : In (Str.toLowerCase k)
                     (propNames (extractAttrs node) vnodeProps)).
    { apply propNames_In. left. apply hasOwn_In.
      rewrite extractAttrs_has. exact Hhas. }
    destruct (@diffProps_at_removal directives specialDirectives
                (extractAttrs node) vnodeProps vnode node
                (Str.toLowerCase k) Hin
                (Hr _ (toLowerCase_idem k)))
      as (before & after & _ & _ & _ & Hfin).
    unfold hasAttribute in *. rewrite toLowerCase_idem in Hfin.
    apply Hfin. intros k' _. split; [apply Hd | apply Hr].
  - rewrite (@diffProps_loop directives specialDirectives).
    apply loop_keeps_absent; [|exact Hhas].
    intros k' _. split; [apply Hd | apply Hr].
Qed.



(** The run of the example above: both attributes are removed. *)
Example diffProps_run_with_falsy_values :
  let node := DElem "INPUT" [("disabled", "true"); ("value", "3")] [] [] in
  let vnodeProps := [("disabled", VBool false); ("value", VNum 0)] in
  diffProps (fun _ => None) (fun _ => false) node (extractAttrs node)
            vnodeProps (h "input" (Some vnodeProps) None []) =
  (DElem "INPUT" [] [] [],
   [RemoveAttribute node "disabled";
    RemoveAttribute (DElem "INPUT" [("value", "3")] [] []) "value"]).
Proof. reflexivity. Qed.

(** ** The tree differ *)

Section Diff.

Variable events : string -> bool.
Variable directives : string -> option hook.
Variable specialDirectives : string -> bool.

Local Abbreviation diffNodeK := (diffNode events directives specialDirectives).
Local Abbreviation diffChildrenK :=
  (diffChildren events directives specialDirectives).
Local Abbreviation diffPropsK := (diffProps directives specialDirectives).

Lemma diffNode_eq (vnode : vnode) (kids : list dnode) (i : nat) :
  diffNodeK vnode kids i =
  if shouldRender (meta vnode) then
    match nth_error kids i with
    | None => (kids ++ [rendered vnode], [AppendChild (rendered vnode)])
    | Some node =>
        if negb (Str.toLowerCase (Dom.nodeName node) =? type vnode) then
          (Dom.replaceAt i (rendered vnode) kids,
           [ReplaceChild (rendered vnode) node])
        else if (Str.toLowerCase (Dom.nodeName node) =? "#text")
                && (type vnode =? "#text") then
          (Dom.replaceAt i (Dom.setTextContent node (val vnode)) kids,
           [SetTextContent node (val vnode)])
        else if negb (type vnode =? EmptyString) then
          let r := diffPropsK node (extractAttrs node) (props vnode) vnode in
          let c := diffChildrenK (children vnode) 0
                                 (Dom.childNodes (fst r)) in
          (Dom.replaceAt i (Dom.setChildNodes (fst r) (fst c)) kids,
           snd r ++ List.map (Under i) (snd c))
        else (kids, [])
    end
  else (kids, []).
Proof.
  destruct vnode as [t s p c m].
  cbn [diffNode shouldRender meta type val props children].
  destruct (shouldRender m); [|reflexivity].
  destruct (nth_error kids i) as [node|].
  - destruct (negb (Str.toLowerCase (Dom.nodeName node) =? t)).
    + now rewrite createNodeFromVNode_rendered.
    + destruct ((Str.toLowerCase (Dom.nodeName node) =? "#text")
                && (t =? "#text")); [reflexivity|].
      destruct (negb (t =? EmptyString)); [|reflexivity].
      destruct (diffPropsK node (extractAttrs node) p
                           (VNode t s p c m)) as [n1 t1].
      cbn [fst snd]. fold diffChildrenK.
      now destruct (diffChildrenK c 0 (Dom.childNodes n1)).
  - now rewrite createNodeFromVNode_rendered.
Qed.

Lemma diffChildren_cons (v : vnode) (vs : list vnode) (j : nat)
    (ks : list dnode) :
  diffChildrenK (v :: vs) j ks =
  (fst (diffChildrenK vs (S j) (fst (diffNodeK v ks j))),
   snd (diffNodeK v ks j) ++
   snd (diffChildrenK vs (S j) (fst (diffNodeK v ks j)))).
Proof.
  cbn [diffChildren]. destruct (diffNodeK v ks j) as [k1 ta].
  cbn [fst snd]. fold diffChildrenK.
  now destruct (diffChildrenK vs (S j) k1).
Qed.

Lemma diffChildren_nil (j : nat) (ks : list dnode) :
  diffChildrenK [] j ks = removeRest (length ks) j ks.
Proof. reflexivity. Qed.

Lemma removeRest_done (fuel j : nat) (ks : list dnode) :
  length ks <= j -> removeRest fuel j ks = (ks, []).
Proof.
  intros H. destruct fuel as [|f]; [reflexivity|]. simpl.
  destruct (Nat.ltb_spec j (length ks)); [lia | reflexivity].
Qed.

Local Abbreviation quietK := (quiet events directives specialDirectives).

Lemma quiet_children (vs : list vnode) :
  Forall quietK vs ->
  forall j ks,
    length ks = j + length vs ->
    (forall n v, nth_error vs n = Some v ->
                 nth_error ks (j + n) = Some (rendered v)) ->
    forall e, In e (snd (diffChildrenK vs j ks)) -> structural e = false.
Proof.
  induction 1 as [|v vs Hv _ IH]; intros j ks Hlen Hnth e.
  - rewrite diffChildren_nil, removeRest_done by (simpl in Hlen; lia).
    intros [].
  - rewrite diffChildren_cons. cbn [snd].
    assert (Hj : nth_error ks j = Some (rendered v)).
    { rewrite <- (Nat.add_0_r j). now apply Hnth. }
    destruct (Hv ks j Hj) as (Hl & Hother & Hev).
    rewrite in_app_iff. intros [Hin|Hin]; [now apply Hev|].
    revert Hin. apply IH.
    + rewrite Hl, Hlen. simpl. lia.
    + intros n v' Hn. rewrite Hother by lia.
      replace (S j + n) with (j + S n) by lia. now apply Hnth.
Qed.

Lemma replaceAt_length (i : nat) (n : dnode) (kids : list dnode) :
  i < length kids -> length (Dom.replaceAt i n kids) = length kids.
Proof.
  intros H. unfold Dom.replaceAt.
  rewrite length_app, length_firstn. cbn [length]. rewrite length_skipn. lia.
Qed.

Lemma replaceAt_other (i j : nat) (n : dnode) (kids : list dnode) :
  i < length kids -> j <> i ->
  nth_error (Dom.replaceAt i n kids) j = nth_error kids j.
Proof.
  unfold Dom.replaceAt. revert i j.
  induction kids as [|x kids IH]; intros i j H Hne; simpl in H; [lia|].
  destruct i as [|i], j as [|j]; simpl; try reflexivity; try lia.
  apply IH; lia.
Qed.

Lemma rendered_children (vs : list vnode) (n : nat) (v : vnode) :
  nth_error vs n = Some v ->
  nth_error (List.map rendered vs) n = Some (rendered v).
Proof. intros H. now apply map_nth_error. Qed.

Ltac now_unchanged :=
  cbn [fst snd];
  split; [reflexivity | split; [intros; reflexivity | intros ? []]].

Lemma lowerTags_quiet (v : vnode) :
  noDirectiveKeys directives v = true -> lowerTags v = true -> quietK v.
Proof.
  induction v as [t s p c m IH] using vnode_ind.
  intros Hno Hlow kids i Hi.
  assert (Hlt : i < length kids) by (apply nth_error_Some; congruence).
  cbv zeta. rewrite diffNode_eq.
  cbn [shouldRender meta type val props children].
  cbn [lowerTags type children] in Hlow.
  apply andb_prop in Hlow. destruct Hlow as [Ht Hc].
  apply String.eqb_eq in Ht.
  cbn [noDirectiveKeys props children] in Hno.
  apply andb_prop in Hno. destruct Hno as [Hkeys Hkids].
  destruct (shouldRender m); [|now_unchanged].
  rewrite Hi. cbn [rendered type val children].
  destruct (String.eqb_spec t "#text") as [->|Htext].
  - cbn. rewrite replaceAt_length by exact Hlt.
    repeat split.
    + intros j Hj. now apply replaceAt_other.
    + intros e [<-|[]]. reflexivity.
  - cbn [Dom.nodeName]. rewrite toLowerCase_toUpperCase, Ht.
    rewrite String.eqb_refl. cbn [negb].
    apply String.eqb_neq in Htext. rewrite Htext. cbn [andb].
    destruct (negb (t =? EmptyString)); [|now_unchanged].
    cbv zeta. cbn [fst snd].
    rewrite replaceAt_length by exact Hlt.
    repeat split.
    + intros j Hj. now apply replaceAt_other.
    + intros e. rewrite in_app_iff, in_map_iff.
      intros [He | (e' & <- & He')].
      * now apply (diffProps_not_structural _ _ _ _ _ _ _ He).
      * cbn [structural]. revert He'.
        rewrite diffProps_childNodes.
        -- cbn [Dom.childNodes].
           apply quiet_children.
           ++ rewrite Forall_forall in IH. apply Forall_forall.
              intros x Hx. rewrite forallb_forall in Hc, Hkids.
              apply IH; [exact Hx | now apply Hkids | now apply Hc].
           ++ now rewrite length_map.
           ++ intros n v Hn. now apply rendered_children.
        -- intros k Hk. apply propNames_In in Hk.
           destruct Hk as [[]|Hk].
           rewrite forallb_forall in Hkeys. specialize (Hkeys k Hk).
           now destruct (directives k).
Qed.

End Diff.

(** C1, as the code has it.  For a tree [T] whose tags are all in
    lower case and none of whose attribute keys names a registered
    directive, reconciling the materialization of [T] against [T]
    adds, removes and replaces no node: the parent keeps its children,
    and the trace holds no [appendChild], [removeChild] or
    [replaceChild] at any depth. *)
Theorem diff_rendered_keeps_nodes
    (events : string -> bool) (directives : string -> option hook)
    (specialDirectives : string -> bool)
    (T : vnode) (kids : list dnode) (i : nat) :
  lowerTags T = true ->
  noDirectiveKeys directives T = true ->
  nth_error kids i = Some (fst (createNodeFromVNode events T)) ->
  exists kids' t,
    diff events directives specialDirectives kids i (Some T)
    = Some (kids', t) /\
    length kids' = length kids /\
    (forall j, j <> i -> nth_error kids' j = nth_error kids j) /\
    (forall e, In e t -> structural e = false).
Proof.
  intros Hlow Hno Hi. rewrite createNodeFromVNode_rendered in Hi.
  destruct (@lowerTags_quiet events directives specialDirectives
              T Hno Hlow kids i Hi) as (Hl & Ho & He).
  exists (fst (diffNode events directives specialDirectives T kids i)),
         (snd (diffNode events directives specialDirectives T kids i)).
  unfold diff. rewrite <- surjective_pairing. auto.
Qed.

Lemma diff_rendered_keeps_nodes_witness :
  let T := h "div" (Some [("class", VStr "a"); ("title", VStr "t")]) None
             [ANode (h "span" (Some [("id", VStr "s")]) None [AString "x"]);
              AString "y"] in
  let kids := [DText "before";
               fst (createNodeFromVNode (fun _ => false) T)] in
  exists kids' t,
    diff (fun _ => false) textDirective (fun _ => false) kids 1 (Some T)
    = Some (kids', t) /\
    length kids' = length kids /\
    (forall j, j <> 1 -> nth_error kids' j = nth_error kids j) /\
    (forall e, In e t -> structural e = false).
Proof.
  apply (@diff_rendered_keeps_nodes (fun _ => false) textDirective
           (fun _ => false)
           (h "div" (Some [("class", VStr "a"); ("title", VStr "t")]) None
              [ANode (h "span" (Some [("id", VStr "s")]) None [AString "x"]);
               AString "y"])).
  - reflexivity.
  - reflexivity.
  - reflexivity.
Defined.

(** C1 as stated fails, in two ways.  A tree whose tag is written in
    upper case is replaced when it is reconciled against its own
    materialization.  And a tree in lower case one of whose attribute
    keys names a directive gets a node appended when the hook of the
    directive has changed the children of its element. *)
Lemma diff_rendered_counterexample :
  ~ (forall events directives specialDirectives T kids i kids' t,
        nth_error kids i = Some (fst (createNodeFromVNode events T)) ->
        diff events directives specialDirectives kids i (Some T)
        = Some (kids', t) ->
        forall e, In e t -> structural e = false) /\
  ~ (forall events directives specialDirectives T kids i kids' t,
        lowerTags T = true ->
        nth_error kids i = Some (fst (createNodeFromVNode events T)) ->
        diff events directives specialDirectives kids i (Some T)
        = Some (kids', t) ->
        forall e, In e t -> structural e = false).
Proof.
  split.
  - intros H.
    specialize (H (fun _ => false) (fun _ => None) (fun _ => false)
                  (h "DIV" None None [])
                  [DElem "DIV" [] [] []] 0
                  [DElem "DIV" [] [] []]
                  [ReplaceChild (DElem "DIV" [] [] []) (DElem "DIV" [] [] [])]
                  eq_refl eq_refl
                  (ReplaceChild (DElem "DIV" [] [] []) (DElem "DIV" [] [] []))
                  (or_introl eq_refl)).
    discriminate H.
  - intros H.
    specialize (H (fun _ => false) textDirective (fun _ => false)
                  (h "p" (Some [("m-text", VStr "hi")]) None
                     [AString "a"; ANode (h "b" None None [])])
                  [DElem "P" [] [] [DText "a"; DElem "B" [] [] []]] 0
                  _ _ eq_refl eq_refl eq_refl
                  (Under 0 (AppendChild (DElem "B" [] [] [])))).
    assert (E : structural (Under 0 (AppendChild (DElem "B" [] [] []))) = false);
      [|discriminate E].
    apply H. vm_compute. tauto.
Qed.

(** C5. When the desired node has [shouldRender] false, [diff] returns
    the child list of the parent as it was, the subtree of the live
    node included, and calls nothing. *)
Theorem diff_skips_unrendered
    (events : string -> bool) (directives : string -> option hook)
    (specialDirectives : string -> bool)
    (kids : list dnode) (i : nat) (vnode : vnode) :
  shouldRender (meta vnode) = false ->
  diff events directives specialDirectives kids i (Some vnode)
  = Some (kids, []).
Proof.
  intros H. unfold diff. now rewrite diffNode_eq, H.
Qed.

Lemma diff_skips_unrendered_witness :
  diff (fun _ => false) showDirective (fun _ => false)
       [DElem "P" [("id", "x")] [] [DText "old"]] 0
       (Some (h "div" (Some [("class", VStr "b")])
                (Some (Meta false [])) [AString "new"]))
  = Some ([DElem "P" [("id", "x")] [] [DText "old"]], []).
Proof.
  apply (@diff_skips_unrendered (fun _ => false) showDirective
           (fun _ => false)
           [DElem "P" [("id", "x")] [] [DText "old"]] 0
           (h "div" (Some [("class", VStr "b")])
              (Some (Meta false [])) [AString "new"])).
  reflexivity.
Defined.

(** C7, as the code has it.  With the render gate open and a live node
    present, the node is replaced by the materialization of the
    desired node exactly when its lower-cased name differs from the
    desired type as written; a desired type that is not in lower case
    is therefore always replaced. *)
Theorem diff_replaces_on_mismatch
    (events : string -> bool) (directives : string -> option hook)
    (specialDirectives : string -> bool)
    (vnode : vnode) (kids : list dnode) (i : nat) (node : dnode) :
  shouldRender (meta vnode) = true ->
  nth_error kids i = Some node ->
  let r := diffNode events directives specialDirectives vnode kids i in
  let el := fst (createNodeFromVNode events vnode) in
  diff events directives specialDirectives kids i (Some vnode) = Some r /\
  (Str.toLowerCase (Dom.nodeName node) <> type vnode ->
   r = (Dom.replaceAt i el kids, [ReplaceChild el node])) /\
  (Str.toLowerCase (Dom.nodeName node) = type vnode ->
   forall newChild oldChild, ~ In (ReplaceChild newChild oldChild) (snd r)) /\
  (Str.toLowerCase (type vnode) <> type vnode ->
   r = (Dom.replaceAt i el kids, [ReplaceChild el node])).
Proof.
  intros Hgate Hi r el.
  assert (Hne : Str.toLowerCase (Dom.nodeName node) <> type vnode ->
                r = (Dom.replaceAt i el kids, [ReplaceChild el node])).
  { intros H. unfold r, el.
    rewrite diffNode_eq, Hgate, Hi, createNodeFromVNode_rendered.
    apply String.eqb_neq in H. now rewrite H. }
  split; [reflexivity|]. split; [exact Hne|]. split.
  - intros Heq newChild oldChild. unfold r.
    rewrite diffNode_eq, Hgate, Hi, Heq, String.eqb_refl. cbn [negb].
    destruct ((type vnode =? "#text") && (type vnode =? "#text")).
    + intros [E|[]]. discriminate E.
    + destruct (negb (type vnode =? EmptyString)); [|intros []].
      cbv zeta. cbn [snd]. rewrite in_app_iff, in_map_iff.
      intros [H | (e & E & _)]; [|discriminate E].
      apply diffProps_not_structural in H. discriminate H.
  - intros H. apply Hne. intros E. apply H.
    rewrite <- E. apply toLowerCase_idem.
Qed.

Lemma diff_replaces_on_mismatch_witness :
  let vnode := h "Section" None None [AString "x"] in
  let node := DElem "SECTION" [("id", "s")] [] [DText "x"] in
  let kids := [node] in
  let r := diffNode (fun _ => false) showDirective (fun _ => false)
                    vnode kids 0 in
  let el := fst (createNodeFromVNode (fun _ => false) vnode) in
  diff (fun _ => false) showDirective (fun _ => false) kids 0 (Some vnode)
  = Some r /\
  (Str.toLowerCase (Dom.nodeName node) <> type vnode ->
   r = (Dom.replaceAt 0 el kids, [ReplaceChild el node])) /\
  (Str.toLowerCase (Dom.nodeName node) = type vnode ->
   forall newChild oldChild, ~ In (ReplaceChild newChild oldChild) (snd r)) /\
  (Str.toLowerCase (type vnode) <> type vnode ->
   r = (Dom.replaceAt 0 el kids, [ReplaceChild el node])).
Proof.
  apply (@diff_replaces_on_mismatch (fun _ => false) showDirective
           (fun _ => false)
           (h "Section" None None [AString "x"])
           [DElem "SECTION" [("id", "s")] [] [DText "x"]] 0
           (DElem "SECTION" [("id", "s")] [] [DText "x"]));
    reflexivity.
Defined.

(** C7 as stated fails: a live node and a desired node whose tags
    differ only in letter case are replaced. *)
Lemma diff_case_insensitive_counterexample :
  ~ (forall events directives specialDirectives vnode kids i node,
        shouldRender (meta vnode) = true ->
        nth_error kids i = Some node ->
        Str.toLowerCase (Dom.nodeName node) = Str.toLowerCase (type vnode) ->
        forall newChild oldChild,
          ~ In (ReplaceChild newChild oldChild)
               (snd (diffNode events directives specialDirectives
                              vnode kids i))).
Proof.
  intros H.
  apply (H (fun _ => false) (fun _ => None) (fun _ => false)
           (h "Div" None None [])
           [Dom.createElement "div"] 0 (Dom.createElement "div")
           eq_refl eq_refl eq_refl
           (DElem "DIV" [] [] []) (DElem "DIV" [] [] [])).
  vm_compute. now left.
Qed.

(** ** The child loop, on indices *)

Section ChildLoop.

Variable events : string -> bool.
Variable directives : string -> option hook.
Variable specialDirectives : string -> bool.

Local Abbreviation diffNodeK := (diffNode events directives specialDirectives).
Local Abbreviation diffK := (diff events directives specialDirectives).
Local Abbreviation childLoopK :=
  (childLoop events directives specialDirectives).

Lemma removeAt_length (j : nat) (ks : list dnode) :
  j < length ks -> length (Dom.removeAt j ks) = length ks - 1.
Proof.
  intros H. unfold Dom.removeAt.
  rewrite length_app, length_firstn, length_skipn. lia.
Qed.

Lemma diffNode_length (v : vnode) (ks : list dnode) (j : nat) :
  length (fst (diffNodeK v ks j)) <= length ks + 1.
Proof.
  rewrite diffNode_eq.
  destruct (shouldRender (meta v)); [|simpl; lia].
  destruct (nth_error ks j) as [node|] eqn:E.
  - assert (Hj : j < length ks) by (apply nth_error_Some; congruence).
    repeat match goal with
           | |- context [if ?b then _ else _] => destruct b
           end; cbv zeta; cbn [fst];
      rewrite ?replaceAt_length by exact Hj; lia.
  - cbn [fst]. rewrite length_app. simpl. lia.
Qed.

(** Past the desired children, the loop only removes. *)
Lemma childLoop_removeRest (vs : list vnode) (f j : nat) (ks : list dnode) :
  length vs <= j -> length ks - j <= f ->
  childLoopK f vs j ks = Some (removeRest f j ks).
Proof.
  intros Hvs. revert j ks Hvs.
  induction f as [|f IH]; intros j ks Hvs Hf; cbn [childLoop removeRest].
  - destruct (Nat.ltb_spec j (length vs)); [lia|].
    destruct (Nat.ltb_spec j (length ks)); [lia|]. reflexivity.
  - destruct (Nat.ltb_spec j (length vs)); [lia|].
    destruct (Nat.ltb_spec j (length ks)) as [Hj|Hj]; [|reflexivity].
    cbn [orb]. assert (E : nth_error vs j = None)
      by (apply nth_error_None; lia).
    rewrite E. cbn [diff]. unfold diffMissing.
    destruct (nth_error ks j) as [node|] eqn:En;
      [|apply nth_error_None in En; lia].
    rewrite IH by (rewrite ?removeAt_length by exact Hj; lia).
    now destruct (removeRest f (S j) (Dom.removeAt j ks)).
Qed.

Lemma removeRest_fuel (f f' j : nat) (ks : list dnode) :
  length ks - j <= f -> length ks - j <= f' ->
  removeRest f j ks = removeRest f' j ks.
Proof.
  revert f' j ks.
  induction f as [|f IH]; intros f' j ks Hf Hf'.
  - rewrite !removeRest_done by lia. reflexivity.
  - destruct f' as [|f']; [rewrite !removeRest_done by lia; reflexivity|].
    cbn [removeRest].
    destruct (Nat.ltb_spec j (length ks)) as [Hj|Hj]; [|reflexivity].
    unfold diffMissing.
    destruct (nth_error ks j) as [node|]; [|reflexivity].
    rewrite (IH f') by (rewrite ?removeAt_length by exact Hj; lia).
    reflexivity.
Qed.

(** With enough fuel the loop on indices ends, and returns what the
    loop of [diffNode] returns. *)
Lemma childLoop_diffChildren (pre vs : list vnode) (f : nat)
    (ks : list dnode) :
  2 * length vs + length ks <= f ->
  childLoopK f (pre ++ vs) (length pre) ks =
  Some (diffChildren events directives specialDirectives
                     vs (length pre) ks).
Proof.
  revert pre f ks.
  induction vs as [|v vs IH]; intros pre f ks Hf.
  - rewrite app_nil_r, childLoop_removeRest by (simpl in Hf; lia).
    rewrite diffChildren_nil. f_equal. apply removeRest_fuel; lia.
  - destruct f as [|f]; [simpl in Hf; lia|].
    cbn [childLoop].
    assert (Hlt : (length pre <? length (pre ++ v :: vs))%nat = true).
    { apply Nat.ltb_lt. rewrite length_app. simpl. lia. }
    rewrite Hlt. cbn [orb].
    rewrite nth_error_app2, Nat.sub_diag by lia. cbn [nth_error diff].
    rewrite (surjective_pairing (diffNodeK v ks (length pre))).
    specialize (IH (pre ++ [v]) f (fst (diffNodeK v ks (length pre)))).
    rewrite <- app_assoc, length_app, Nat.add_1_r in IH. cbn [app] in IH.
    rewrite IH.
    + rewrite diffChildren_cons.
      now destruct (diffChildren events directives specialDirectives vs
                      (S (length pre)) (fst (diffNodeK v ks (length pre)))).
    + pose proof (diffNode_length v ks (length pre)). simpl in Hf. lia.
Qed.

End ChildLoop.

(* ================================================================= *)
(** * Further properties *)

(** ** [merge] on arbitrary objects *)

Lemma filter_hasOwn_keys (p : dict) :
  filter (hasOwn p) (keys p) = keys p.
Proof.
  apply forallb_filter_id. apply forallb_forall.
  intros k Hk. now apply hasOwn_In.
Qed.

Lemma filter_hasOwn_inherited (p : dict) (l : list string) :
  filter (hasOwn p) (filter (fun k => negb (hasOwn p k)) l) = [].
Proof.
  induction l as [|k l IH]; simpl; [reflexivity|].
  destruct (hasOwn p k) eqn:E; simpl; [exact IH|].
  now rewrite E.
Qed.

Lemma copyOwn_filter (p : dict) (l1 l2 : list string) (d : dict) :
  copyOwn p (l1 ++ l2) d = copyOwn p l2 (copyOwn p l1 d).
Proof. unfold copyOwn. apply fold_left_app. Qed.

(** Whatever its arguments are, [Store.overlay] adds one object whose
    prototype is the first argument and whose own properties are the
    own properties of the second; what the second argument inherits is
    passed over by the [hasOwnProperty] test. *)
Lemma overlay_any (st : Store.store) (a b : Store.loc) (ob : Store.object) :
  nth_error st b = Some ob ->
  Store.overlay a b st =
  (length st,
   st ++ [Store.Obj (Store.Proto a)
                    (copyOwn (Store.own ob) (keys (Store.own ob)) [])]).
Proof.
  intros Hb.
  assert (Hlb : b < length st) by (apply nth_error_Some; congruence).
  unfold Store.overlay, Store.create, Store.alloc. f_equal.
  assert (Hgen : forall ks d,
             fold_left
               (fun s key =>
                  if Store.hasOwnProperty s b key
                  then Store.assign (length st) key (Store.get s b key) s
                  else s)
               ks (st ++ [Store.Obj (Store.Proto a) d]) =
             st ++ [Store.Obj (Store.Proto a)
                      (copyOwn (Store.own ob)
                               (filter (hasOwn (Store.own ob)) ks) d)]).
  { induction ks as [|k ks IH]; intros d; simpl; [reflexivity|].
    assert (Hhas : Store.hasOwnProperty
                     (st ++ [Store.Obj (Store.Proto a) d]) b k
                   = hasOwn (Store.own ob) k).
    { unfold Store.hasOwnProperty.
      now rewrite nth_error_old, Hb by exact Hlb. }
    rewrite Hhas. destruct (hasOwn (Store.own ob) k) eqn:Hk.
    - assert (Hget : Store.get (st ++ [Store.Obj (Store.Proto a) d]) b k
                     = getOwn (Store.own ob) k).
      { unfold Store.get. rewrite length_app, Nat.add_1_r. simpl.
        rewrite nth_error_old, Hb by exact Hlb. now rewrite Hk. }
      rewrite Hget, assign_last. simpl. now rewrite IH.
    - apply IH. }
  rewrite Hgen. do 3 f_equal.
  unfold Store.forIn. rewrite length_app, Nat.add_1_r.
  cbn [Store.forInF]. rewrite nth_error_old, Hb by exact Hlb.
  rewrite filter_app, filter_hasOwn_keys.
  destruct (Store.proto ob).
  - now rewrite filter_hasOwn_inherited, app_nil_r.
  - simpl. now rewrite app_nil_r.
  - simpl. now rewrite app_nil_r.
Qed.

Lemma getF_old (st : Store.store) (o : Store.object) (f : nat)
    (l : Store.loc) (k : string) :
  Store.wf st -> l < length st ->
  Store.getF f (st ++ [o]) l k = Store.getF f st l k.
Proof.
  intros Hwf. revert l. induction f as [|f IH]; intros l Hl; simpl.
  - reflexivity.
  - rewrite nth_error_old by exact Hl.
    destruct (nth_error st l) as [x|] eqn:E; [|reflexivity].
    destruct (hasOwn (Store.own x) k); [reflexivity|].
    destruct (Store.proto x) as [q| |] eqn:Ep; try reflexivity.
    apply IH. specialize (Hwf l x q E Ep). lia.
Qed.

Lemma wfFrom_wf (st : Store.store) (n : nat) :
  wfFrom n st = true ->
  forall l o p, nth_error st l = Some o -> Store.proto o = Store.Proto p ->
                p < n + l.
Proof.
  revert n. induction st as [|x st IH]; intros n H l o p Hl Hp.
  - destruct l; discriminate Hl.
  - simpl in H. apply andb_prop in H. destruct H as [Hx Hr].
    destruct l as [|l]; simpl in Hl.
    + injection Hl as ->. rewrite Hp in Hx. apply Nat.ltb_lt in Hx. lia.
    + specialize (IH (S n) Hr l o p Hl Hp). lia.
Qed.

Lemma wfFrom_0_wf (st : Store.store) : wfFrom 0 st = true -> Store.wf st.
Proof. intros H l o p Hl Hp. apply (wfFrom_wf _ _ H l Hl Hp). Qed.

Lemma wf_alloc (st : Store.store) (a : Store.loc) (d : dict) :
  Store.wf st -> a < length st ->
  Store.wf (st ++ [Store.Obj (Store.Proto a) d]).
Proof.
  intros Hwf Ha l o p Hl Hp.
  destruct (Nat.lt_ge_cases l (length st)) as [Hlt|Hge].
  - rewrite nth_error_old in Hl by exact Hlt. now apply (Hwf l o p).
  - rewrite nth_error_app2 in Hl by exact Hge.
    destruct (l - length st) as [|n] eqn:E; simpl in Hl.
    + injection Hl as <-. simpl in Hp. injection Hp as <-. lia.
    + destruct n; discriminate Hl.
Qed.

Lemma plain_wf (st : Store.store) :
  (forall l o, nth_error st l = Some o ->
               Store.proto o = Store.ObjectPrototype) ->
  Store.wf st.
Proof. intros H l o p Hl Hp. rewrite (H l o Hl) in Hp. discriminate Hp. Qed.

Lemma find_plain (st : Store.store) (b : Store.loc) (pb : dict) (k : string) :
  Store.plain st b pb -> hasOwn pb k = false ->
  Store.find st b k = Store.Inherited.
Proof.
  unfold Store.plain, Store.find. intros Hb Hk.
  assert (Hlb : b < length st) by (apply nth_error_Some; congruence).
  destruct (length st) as [|n]; [lia|].
  cbn [Store.findF]. rewrite Hb. cbn [Store.own Store.proto].
  now rewrite Hk.
Qed.

(** What [merge] returns, when it returns as [Store.overlay] does. *)
Lemma merge_get (st : Store.store) (a b : Store.loc)
    (ob : Store.object) :
  Store.wf st -> a < length st -> nth_error st b = Some ob ->
  Store.find st b "hasOwnProperty" = Store.Inherited ->
  hasOwn (Store.own ob) "__proto__" = false ->
  let st' := st ++ [Store.Obj (Store.Proto a)
                      (copyOwn (Store.own ob) (keys (Store.own ob)) [])] in
  Store.merge a b st = Some (length st, st') /\
  Store.wf st' /\
  length st' = S (length st) /\
  (forall l, l < length st -> nth_error st' l = nth_error st l) /\
  (forall k, Store.get st' (length st) k =
             if hasOwn (Store.own ob) k then getOwn (Store.own ob) k
             else Store.get st a k).
Proof.
  intros Hwf Ha Hb Hfind Hproto st'.
  split.
  { rewrite (@merge_ordinary st a b ob Hwf Hb Hfind Hproto).
    now rewrite (@overlay_any st a b ob Hb). }
  split; [now apply wf_alloc|].
  split; [unfold st'; rewrite length_app; simpl; lia|].
  split; [intros l Hl; now apply nth_error_old|].
  intros k. unfold st', Store.get at 1. rewrite length_app, Nat.add_1_r.
  cbn [Store.getF]. rewrite nth_error_new. cbn [Store.own Store.proto].
  rewrite hasOwn_copy_all, getOwn_copy_all.
  destruct (hasOwn (Store.own ob) k); [reflexivity|].
  now apply getF_old.
Qed.

(** [merge(a, b)] on two objects of a store whose prototype links
    point backwards, where [b] finds its method [hasOwnProperty] on
    [Object.prototype] and has no own [__proto__]: the call returns a
    new object; reading a name [k] that [Object.prototype] does not
    define off the result gives [b]'s own property when [b] has one,
    and otherwise whatever [a] gives, through [a]'s own prototype
    chain; a property that [b] only inherits is not consulted.  No
    earlier object changes. *)
Theorem merge_reads_own_then_first (st : Store.store) (a b : Store.loc)
    (ob : Store.object) :
  Store.wf st -> a < length st -> nth_error st b = Some ob ->
  Store.find st b "hasOwnProperty" = Store.Inherited ->
  hasOwn (Store.own ob) "__proto__" = false ->
  exists merged st',
    Store.merge a b st = Some (merged, st') /\
    Store.wf st' /\
    merged = length st /\ length st' = S (length st) /\
    (forall l, l < length st -> nth_error st' l = nth_error st l) /\
    (forall k, inherited k = false ->
               Store.get st' merged k =
               if hasOwn (Store.own ob) k then getOwn (Store.own ob) k
               else Store.get st a k).
Proof.
  intros Hwf Ha Hb Hfind Hproto.
  destruct (@merge_get st a b ob Hwf Ha Hb Hfind Hproto)
    as (E & Hwf' & Hlen & Hold & Hget).
  eexists _, _. split; [exact E|].
  split; [exact Hwf'|]. split; [reflexivity|]. split; [exact Hlen|].
  split; [exact Hold|]. intros k _. apply Hget.
Qed.

Lemma merge_reads_own_then_first_witness :
  let st := [Store.Obj Store.ObjectPrototype [("id", VStr "x")];
             Store.Obj (Store.Proto 0) [("class", VStr "a")]] in
  exists merged st',
    Store.merge 0 1 st = Some (merged, st') /\
    Store.wf st' /\
    merged = length st /\ length st' = S (length st) /\
    (forall l, l < length st -> nth_error st' l = nth_error st l) /\
    (forall k, inherited k = false ->
               Store.get st' merged k =
               if hasOwn [("class", VStr "a")] k
               then getOwn [("class", VStr "a")] k
               else Store.get st 0 k).
Proof.
  apply (@merge_reads_own_then_first
           [Store.Obj Store.ObjectPrototype [("id", VStr "x")];
            Store.Obj (Store.Proto 0) [("class", VStr "a")]]
           0 1 (Store.Obj (Store.Proto 0) [("class", VStr "a")])).
  - apply wfFrom_0_wf. reflexivity.
  - simpl. lia.
  - reflexivity.
  - reflexivity.
  - reflexivity.
Defined.

Lemma get_plain (st : Store.store) (a : Store.loc) (pa : dict) (k : string) :
  Store.plain st a pa -> Store.get st a k = getOwn pa k.
Proof.
  unfold Store.plain, Store.get. intros Ha.
  assert (Hla : a < length st) by (apply nth_error_Some; congruence).
  destruct (length st) as [|n]; [lia|]. simpl. rewrite Ha. simpl.
  destruct (hasOwn pa k) eqn:E; [reflexivity|].
  symmetry. now apply getOwn_missing.
Qed.

Lemma mergeable_inv (p : dict) :
  mergeable p = true ->
  hasOwn p "hasOwnProperty" = false /\ hasOwn p "__proto__" = false.
Proof.
  unfold mergeable. intros H. apply andb_prop in H. destruct H as [H1 H2].
  now apply negb_true_iff in H1, H2.
Qed.

(** Merging in turn: [merge(merge(a, b), c)], for object literals
    where neither [b] nor [c] has a key [hasOwnProperty] or
    [__proto__], returns, and the result reads [c] first, then [b],
    then [a]. *)
Theorem merge_left_nested (st : Store.store) (a b c : Store.loc)
    (pa pb pc : dict) :
  Store.wf st ->
  Store.plain st a pa -> Store.plain st b pb -> Store.plain st c pc ->
  mergeable pb = true -> mergeable pc = true ->
  exists ab st1 abc st2,
    Store.merge a b st = Some (ab, st1) /\
    Store.merge ab c st1 = Some (abc, st2) /\
    forall k, inherited k = false ->
      Store.get st2 abc k =
      if hasOwn pc k then getOwn pc k
      else if hasOwn pb k then getOwn pb k
      else getOwn pa k.
Proof.
  intros Hwf Ha Hb Hc Hmb Hmc.
  destruct (mergeable_inv _ Hmb) as [Hb1 Hb2].
  destruct (mergeable_inv _ Hmc) as [Hc1 Hc2].
  assert (Hla : a < length st) by (apply nth_error_Some; congruence).
  assert (Hlc : c < length st) by (apply nth_error_Some; congruence).
  destruct (@merge_get st a b _ Hwf Hla Hb (find_plain _ Hb Hb1) Hb2)
    as (E1 & Hwf1 & Hlen1 & Hold1 & Hget1).
  cbn [Store.own] in *.
  set (st1 := st ++ [Store.Obj (Store.Proto a) (copyOwn pb (keys pb) [])])
    in *.
  assert (Hc1' : Store.plain st1 c pc).
  { unfold Store.plain. rewrite Hold1 by exact Hlc. exact Hc. }
  destruct (@merge_get st1 (length st) c _ Hwf1
              ltac:(rewrite Hlen1; lia) Hc1' (find_plain _ Hc1' Hc1) Hc2)
    as (E2 & _ & _ & _ & Hget2).
  cbn [Store.own] in *.
  eexists _, _, _, _. split; [exact E1|]. split; [exact E2|].
  intros k _. rewrite Hget2, Hget1.
  now rewrite (@get_plain st a pa k Ha).
Qed.

Lemma merge_left_nested_witness :
  let pa := [("id", VStr "x"); ("class", VStr "a")] in
  let pb := [("class", VStr "b")] in
  let pc := [("title", VStr "t")] in
  let st := [Store.Obj Store.ObjectPrototype pa;
             Store.Obj Store.ObjectPrototype pb;
             Store.Obj Store.ObjectPrototype pc] in
  exists ab st1 abc st2,
    Store.merge 0 1 st = Some (ab, st1) /\
    Store.merge ab 2 st1 = Some (abc, st2) /\
    forall k, inherited k = false ->
      Store.get st2 abc k =
      if hasOwn pc k then getOwn pc k
      else if hasOwn pb k then getOwn pb k
      else getOwn pa k.
Proof.
  apply (@merge_left_nested
           [Store.Obj Store.ObjectPrototype
                      [("id", VStr "x"); ("class", VStr "a")];
            Store.Obj Store.ObjectPrototype [("class", VStr "b")];
            Store.Obj Store.ObjectPrototype [("title", VStr "t")]] 0 1 2).
  - apply wfFrom_0_wf. reflexivity.
  - reflexivity.
  - reflexivity.
  - reflexivity.
  - reflexivity.
  - reflexivity.
Defined.

(** Merging a merged object in second place: [merge(a, merge(b, c))],
    for object literals where [c] has no key [hasOwnProperty] or
    [__proto__] and [b] no key [hasOwnProperty], returns, and the
    result reads [c] first and then [a]; what the inner result
    inherits from [b] is lost. *)
Theorem merge_right_nested (st : Store.store) (a b c : Store.loc)
    (pa pb pc : dict) :
  Store.wf st ->
  Store.plain st a pa -> Store.plain st b pb -> Store.plain st c pc ->
  mergeable pc = true -> hasOwn pb "hasOwnProperty" = false ->
  exists bc st1 abc st2,
    Store.merge b c st = Some (bc, st1) /\
    Store.merge a bc st1 = Some (abc, st2) /\
    (forall k, inherited k = false ->
       Store.get st1 bc k = if hasOwn pc k then getOwn pc k else getOwn pb k) /\
    (forall k, inherited k = false ->
       Store.get st2 abc k = if hasOwn pc k then getOwn pc k else getOwn pa k).
Proof.
  intros Hwf Ha Hb Hc Hmc Hb1.
  destruct (mergeable_inv _ Hmc) as [Hc1 Hc2].
  assert (Hla : a < length st) by (apply nth_error_Some; congruence).
  assert (Hlb : b < length st) by (apply nth_error_Some; congruence).
  destruct (@merge_get st b c _ Hwf Hlb Hc (find_plain _ Hc Hc1) Hc2)
    as (E1 & Hwf1 & Hlen1 & Hold1 & Hget1).
  cbn [Store.own] in *.
  set (st1 := st ++ [Store.Obj (Store.Proto b) (copyOwn pc (keys pc) [])])
    in *.
  assert (Hbc : nth_error st1 (length st)
                = Some (Store.Obj (Store.Proto b) (copyOwn pc (keys pc) []))).
  { apply nth_error_new. }
  assert (Hfind : Store.find st1 (length st) "hasOwnProperty"
                  = Store.Inherited).
  { unfold Store.find. rewrite Hlen1. cbn [Store.findF].
    rewrite Hbc. cbn [Store.own Store.proto].
    rewrite hasOwn_copy_all, Hc1.
    unfold st1. rewrite findF_old by assumption.
    apply (find_plain _ Hb Hb1). }
  destruct (@merge_get st1 a (length st) _ Hwf1
              ltac:(rewrite Hlen1; lia) Hbc Hfind
              ltac:(cbn [Store.own]; now rewrite hasOwn_copy_all))
    as (E2 & _ & _ & _ & Hget2).
  cbn [Store.own] in *.
  eexists _, _, _, _. split; [exact E1|]. split; [exact E2|]. split.
  - intros k _. rewrite Hget1. now rewrite (@get_plain st b pb k Hb).
  - intros k _. rewrite Hget2, hasOwn_copy_all, getOwn_copy_all.
    destruct (hasOwn pc k); [reflexivity|].
    apply get_plain. unfold Store.plain, st1. now rewrite nth_error_old.
Qed.

Lemma merge_right_nested_witness :
  let pa := [("id", VStr "x")] in
  let pb := [("class", VStr "b")] in
  let pc := [("title", VStr "t")] in
  let st := [Store.Obj Store.ObjectPrototype pa;
             Store.Obj Store.ObjectPrototype pb;
             Store.Obj Store.ObjectPrototype pc] in
  exists bc st1 abc st2,
    Store.merge 1 2 st = Some (bc, st1) /\
    Store.merge 0 bc st1 = Some (abc, st2) /\
    (forall k, inherited k = false ->
       Store.get st1 bc k = if hasOwn pc k then getOwn pc k else getOwn pb k) /\
    (forall k, inherited k = false ->
       Store.get st2 abc k = if hasOwn pc k then getOwn pc k else getOwn pa k).
Proof.
  apply (@merge_right_nested
           [Store.Obj Store.ObjectPrototype [("id", VStr "x")];
            Store.Obj Store.ObjectPrototype [("class", VStr "b")];
            Store.Obj Store.ObjectPrototype [("title", VStr "t")]] 0 1 2
           [("id", VStr "x")] [("class", VStr "b")] [("title", VStr "t")]).
  - apply wfFrom_0_wf. reflexivity.
  - reflexivity.
  - reflexivity.
  - reflexivity.
  - reflexivity.
  - reflexivity.
Defined.

Lemma keys_setOwn (d : dict) (k : string) (v : value) :
  keys (setOwn d k v) = if hasOwn d k then keys d else keys d ++ [k].
Proof.
  induction d as [|[k0 v0] d IH]; simpl; [reflexivity|].
  destruct (k0 =? k); simpl; [reflexivity|].
  rewrite IH. now destruct (hasOwn d k).
Qed.

Lemma keys_copyOwn (p : dict) (ks : list string) (d : dict) :
  NoDup ks -> (forall k, In k ks -> hasOwn d k = false) ->
  keys (copyOwn p ks d) = keys d ++ ks.
Proof.
  revert d. induction ks as [|k ks IH]; intros d Hnd Hd.
  - simpl. now rewrite app_nil_r.
  - inversion Hnd as [|? ? Hk Hnd']; subst.
    unfold copyOwn in *. simpl. rewrite IH.
    + rewrite keys_setOwn, Hd by now left.
      now rewrite <- app_assoc.
    + exact Hnd'.
    + intros k' Hk'. rewrite hasOwn_setOwn, Hd by now right.
      destruct (String.eqb_spec k k') as [->|]; [contradiction | reflexivity].
Qed.

Lemma ordinary_mergeable (p : dict) :
  forallb ordinaryKey (keys p) = true -> mergeable p = true.
Proof.
  intros H. rewrite forallb_forall in H. unfold mergeable.
  destruct (hasOwn p "hasOwnProperty") eqn:E1.
  - apply hasOwn_In, H in E1. discriminate E1.
  - destruct (hasOwn p "__proto__") eqn:E2; [|reflexivity].
    apply hasOwn_In, H in E2. discriminate E2.
Qed.

(** The order in which a [for ... in] goes through [merge(a, b)], for
    object literals with ordinary keys: the keys of [b] in their
    order, then the keys of [a] that [b] lacks. *)
Theorem merge_forIn_order (st : Store.store) (a b : Store.loc)
    (pa pb : dict) :
  Store.plain st a pa -> Store.plain st b pb -> NoDup (keys pb) ->
  forallb ordinaryKey (keys pa) = true ->
  forallb ordinaryKey (keys pb) = true ->
  exists merged st',
    Store.merge a b st = Some (merged, st') /\
    Store.forIn st' merged =
    keys pb ++ filter (fun k => negb (hasOwn pb k)) (keys pa).
Proof.
  intros Ha Hb Hnd _ Hob.
  eexists _, _.
  split; [apply (merge_plain Ha Hb (ordinary_mergeable _ Hob))|].
  rewrite (forIn_merged _ Ha).
  rewrite keys_copyOwn by (auto || exact Hnd). simpl. f_equal.
  apply filter_ext. intros k. now rewrite hasOwn_copy_all.
Qed.

Lemma merge_forIn_order_witness :
  let pa := [("id", VStr "x"); ("class", VStr "a")] in
  let pb := [("title", VStr "t"); ("class", VStr "b")] in
  let st := [Store.Obj Store.ObjectPrototype pa;
             Store.Obj Store.ObjectPrototype pb] in
  exists merged st',
    Store.merge 0 1 st = Some (merged, st') /\
    Store.forIn st' merged =
    keys pb ++ filter (fun k => negb (hasOwn pb k)) (keys pa).
Proof.
  apply (@merge_forIn_order
           [Store.Obj Store.ObjectPrototype
                      [("id", VStr "x"); ("class", VStr "a")];
            Store.Obj Store.ObjectPrototype
                      [("title", VStr "t"); ("class", VStr "b")]]
           0 1).
  - reflexivity.
  - reflexivity.
  - repeat constructor; simpl; intuition discriminate.
  - reflexivity.
  - reflexivity.
Defined.

(** ** [extractAttrs] *)

(** [extractAttrs] copies the attributes of an element: reading a
    name off the result gives the string of the attribute of that
    name, and [undefined] when the element has none; the own
    properties of the result are the attributes of the element.  A
    text node gives the empty object.  The element is taken to have no
    attribute named [__proto__], and the name that is read is none
    that [Object.prototype] defines. *)
Theorem extractAttrs_reads_attributes (t : string)
    (a : list (string * string)) (l : list (string * handler))
    (c : list dnode) :
  NoDup (List.map fst a) -> ~ In "__proto__" (List.map fst a) ->
  let el := DElem t a l c in
  (forall k, inherited k = false ->
             getOwn (extractAttrs el) k = attrValue (getAttr a k)) /\
  (forall k, hasOwn (extractAttrs el) k = isSome (getAttr a k)) /\
  (forall s, extractAttrs (DText s) = []).
Proof.
  intros H _ el. split; [|split].
  - intros k _. now apply (@extractAttrs_get el k).
  - intros k. apply (extractAttrs_has el k).
  - reflexivity.
Qed.

Lemma extractAttrs_reads_attributes_witness :
  let a := [("class", "a"); ("id", "x")] in
  let el := DElem "DIV" a [] [] in
  (forall k, inherited k = false ->
             getOwn (extractAttrs el) k = attrValue (getAttr a k)) /\
  (forall k, hasOwn (extractAttrs el) k = isSome (getAttr a k)) /\
  (forall s, extractAttrs (DText s) = []).
Proof.
  apply (@extractAttrs_reads_attributes "DIV" [("class", "a"); ("id", "x")]
           [] []).
  - repeat constructor; simpl; intuition discriminate.
  - simpl. intuition discriminate.
Defined.

(** ** The attribute differ without directives *)

Lemma strictEq_string (s : string) (v : value) :
  strictEq (VStr s) v = true -> v = VStr s.
Proof.
  destruct v; simpl; try discriminate.
  intros H. apply String.eqb_eq in H. now subst.
Qed.

Lemma plainName_lower (k : string) :
  plainName k = true -> Str.toLowerCase k = k.
Proof.
  unfold plainName. intros H. apply andb_prop in H.
  now apply String.eqb_eq.
Qed.

Lemma plainProps_key (p : dict) (k : string) :
  plainProps p = true -> In k (keys p) -> plainName k = true.
Proof.
  unfold plainProps, keys. intros H Hk. rewrite forallb_forall in H.
  apply in_map_iff in Hk. destruct Hk as ([k0 v0] & <- & Hin).
  specialize (H _ Hin). now apply andb_prop in H.
Qed.

Lemma names_delAttr (P : string -> bool) (a : list (string * string))
    (k : string) :
  forallb P (List.map fst a) = true ->
  forallb P (List.map fst (Dom.delAttr a k)) = true.
Proof.
  induction a as [|[k0 v0] a IH]; simpl; intros H; [reflexivity|].
  apply andb_prop in H. destruct H as [H0 Ha].
  destruct (k0 =? k); simpl; [now apply IH|].
  now rewrite H0, IH.
Qed.

Lemma names_setAttr_all (P : string -> bool) (a : list (string * string))
    (k v : string) :
  P k = true -> forallb P (List.map fst a) = true ->
  forallb P (List.map fst (Dom.setAttr a k v)) = true.
Proof.
  intros Hk Ha. rewrite names_setAttr.
  destruct (getAttr a k); simpl; [exact Ha|].
  rewrite forallb_app, Ha. simpl. now rewrite Hk.
Qed.

Lemma extractAttrs_keys (n : dnode) (k : string) :
  In k (keys (extractAttrs n)) -> In k (List.map fst (Dom.attributes n)).
Proof.
  intros H. apply hasOwn_In in H. rewrite extractAttrs_has in H.
  unfold attributeNamed in H.
  destruct (in_dec string_dec k (List.map fst (Dom.attributes n)))
    as [Hin|Hout]; [exact Hin|].
  apply getAttr_None in Hout. rewrite Hout in H. discriminate H.
Qed.

Section Converge.

Variable directives : string -> option hook.
Variable specialDirectives : string -> bool.
Hypothesis no_directive : forall k, directives k = None.
Hypothesis no_special : forall k, specialDirectives k = false.

Variable vnodeProps : dict.
Variable vnode : vnode.
Variable tagName : string.
Variable attributes : list (string * string).
Variable listeners : list (string * handler).
Variable childNodes : list dnode.
Hypothesis unique_names : NoDup (List.map fst attributes).

Let node := DElem tagName attributes listeners childNodes.
Let nodeProps := extractAttrs node.
Local Abbreviation step :=
  (diffProp directives specialDirectives nodeProps vnodeProps vnode
            (allPropsOf nodeProps vnodeProps)).

Local Abbreviation turnK :=
  (turn directives specialDirectives nodeProps vnodeProps vnode).

(** The element is the one [diffProps] started from, up to attributes
    that are either untouched or already as desired; its attribute
    names are plain and none occurs twice. *)
Let inv (cur : dnode) : Prop :=
  exists a,
    cur = DElem tagName a listeners childNodes /\
    NoDup (List.map fst a) /\
    forallb plainName (List.map fst a) = true /\
    forall k, getAttr a k = getAttr attributes k \/
              getAttr a k = desiredAttr vnodeProps k.

Lemma turn_settles (cur : dnode) (k : string) :
  plainName k = true ->
  inv cur ->
  inv (fst (turnK cur k)) /\
  attributeNamed (fst (turnK cur k)) k = desiredAttr vnodeProps k /\
  (forall k', k' <> k ->
              attributeNamed (fst (turnK cur k)) k' = attributeNamed cur k').
Proof.
  intros Hplain (a & -> & Hnd & Hpl & Ha).
  pose proof (plainName_lower _ Hplain) as Hlow.
  unfold turn, diffProp. rewrite no_directive, no_special. cbn [isSome].
  rewrite !orb_false_r.
  assert (Hnp : getOwn nodeProps k = attrValue (getAttr attributes k)).
  { unfold nodeProps. now rewrite extractAttrs_get. }
  unfold desiredAttr.
  destruct (truthy (getOwn vnodeProps k)) eqn:Tv; cbn [negb].
  - destruct (negb (truthy (getOwn nodeProps k))
              || negb (strictEq (getOwn nodeProps k) (getOwn vnodeProps k)))
      eqn:Cond; cbn [fst Dom.setAttribute]; rewrite ?Hlow.
    + split; [|split].
      * eexists. split; [reflexivity|]. split; [now apply NoDup_setAttr|].
        split; [now apply names_setAttr_all|].
        intros k'. rewrite getAttr_setAttr.
        destruct (String.eqb_spec k k') as [<-|]; [|apply Ha].
        right. unfold desiredAttr. now rewrite Tv.
      * unfold attributeNamed. simpl.
        now rewrite getAttr_setAttr, String.eqb_refl.
      * intros k' Hk'. unfold attributeNamed. simpl.
        rewrite getAttr_setAttr.
        destruct (String.eqb_spec k k'); congruence.
    + apply orb_false_elim in Cond. destruct Cond as [_ Ceq].
      apply negb_false_iff in Ceq. rewrite Hnp in Ceq.
      assert (Hcur : getAttr a k = Some (toStr (getOwn vnodeProps k))).
      { destruct (getAttr attributes k) as [s|] eqn:E0; simpl in Ceq.
        - apply strictEq_string in Ceq. rewrite Ceq. simpl.
          destruct (Ha k) as [H|H]; rewrite H.
          + exact E0.
          + unfold desiredAttr. now rewrite Tv, Ceq.
        - destruct (getOwn vnodeProps k); discriminate. }
      split; [|split].
      * exists a. auto.
      * exact Hcur.
      * reflexivity.
  - cbn [fst Dom.removeAttribute]. rewrite Hlow. split; [|split].
    + eexists. split; [reflexivity|]. split; [now apply NoDup_delAttr|].
      split; [now apply names_delAttr|].
      intros k'. rewrite getAttr_delAttr.
      destruct (String.eqb_spec k k') as [<-|]; [|apply Ha].
      right. unfold desiredAttr. now rewrite Tv.
    + unfold attributeNamed. simpl.
      now rewrite getAttr_delAttr, String.eqb_refl.
    + intros k' Hk'. unfold attributeNamed. simpl.
      rewrite getAttr_delAttr.
      destruct (String.eqb_spec k k'); congruence.
Qed.

Lemma fold_settles (ks : list string) (cur : dnode) :
  (forall k, In k ks -> plainName k = true) ->
  inv cur ->
  inv (fst (fold_left step ks (cur, []))) /\
  (forall k, In k ks ->
             attributeNamed (fst (fold_left step ks (cur, []))) k =
             desiredAttr vnodeProps k) /\
  (forall k, ~ In k ks ->
             attributeNamed (fst (fold_left step ks (cur, []))) k =
             attributeNamed cur k).
Proof.
  revert cur. induction ks as [|k0 ks IH]; intros cur Hpl Hinv.
  - simpl. tauto.
  - assert (E : fst (fold_left step (k0 :: ks) (cur, [])) =
                 fst (fold_left step ks (fst (turnK cur k0), []))).
    { cbn [fold_left].
      change (step (cur, []) k0) with (turnK cur k0).
      rewrite (surjective_pairing (turnK cur k0)), fold_step_trace.
      reflexivity. }
    rewrite E.
    destruct (@turn_settles cur k0 (Hpl k0 (or_introl eq_refl)) Hinv)
      as (Hinv' & Hk0 & Hother).
    destruct (IH _ (fun k H => Hpl k (or_intror H)) Hinv')
      as (Hfin & Hin & Hout).
    split; [exact Hfin|]. split.
    + intros k [<-|Hk].
      * destruct (in_dec string_dec k0 ks) as [Hi|Hi];
          [now apply Hin | now rewrite Hout].
      * now apply Hin.
    + intros k Hk. rewrite Hout by (intros H; apply Hk; now right).
      apply Hother. intros ->. apply Hk. now left.
Qed.

End Converge.

Lemma stringValued_get (vnodeProps : dict) (k : string) :
  stringValued vnodeProps = true -> hasOwn vnodeProps k = true ->
  exists s, getOwn vnodeProps k = VStr s /\ truthy (VStr s) = true.
Proof.
  induction vnodeProps as [|[k0 v0] p IH]; simpl; [discriminate|].
  intros H Hk. apply andb_prop in H. destruct H as [H0 Hp].
  destruct (k0 =? k); [|now apply IH].
  destruct v0; try discriminate. eauto.
Qed.

Lemma diffProps_settles_attributes
    (directives : string -> option hook) (specialDirectives : string -> bool)
    (vnodeProps : dict) (vnode : vnode) (t : string)
    (a : list (string * string)) (l : list (string * handler))
    (c : list dnode) :
  (forall k, directives k = None) ->
  (forall k, specialDirectives k = false) ->
  NoDup (List.map fst a) ->
  forallb plainName (List.map fst a) = true ->
  plainProps vnodeProps = true ->
  let el := DElem t a l c in
  let el' := fst (diffProps directives specialDirectives
                            el (extractAttrs el) vnodeProps vnode) in
  (exists a', el' = DElem t a' l c /\ NoDup (List.map fst a') /\
              forallb plainName (List.map fst a') = true) /\
  (forall k, attributeNamed el' k = desiredAttr vnodeProps k).
Proof.
  intros Hd Hs Hnd Hpn Hpp. cbv zeta. unfold diffProps.
  set (el := DElem t a l c).
  set (ks := Store.forIn (snd (allPropsOf (extractAttrs el) vnodeProps))
                         (fst (allPropsOf (extractAttrs el) vnodeProps))).
  assert (Hinv : exists a0,
             el = DElem t a0 l c /\ NoDup (List.map fst a0) /\
             forallb plainName (List.map fst a0) = true /\
             forall k, getAttr a0 k = getAttr a k \/
                       getAttr a0 k = desiredAttr vnodeProps k).
  { exists a. auto. }
  assert (Hks : forall k, In k ks -> plainName k = true).
  { intros k Hk. unfold ks in Hk. rewrite allProps_forIn in Hk.
    destruct Hk as [Hk|Hk].
    - apply extractAttrs_keys in Hk. rewrite forallb_forall in Hpn.
      now apply Hpn.
    - now apply (plainProps_key vnodeProps). }
  destruct (@fold_settles directives specialDirectives Hd Hs vnodeProps
              vnode t a l c Hnd ks el Hks Hinv)
    as ((a' & Ea & Hnd' & Hpn' & _) & Hin & Hout).
  fold el in Hin, Hout, Ea.
  split; [exists a'; split; [exact Ea | split; [exact Hnd' | exact Hpn']]|].
  intros k. destruct (in_dec string_dec k ks) as [Hk|Hk].
  - now apply Hin.
  - rewrite (Hout k Hk). unfold ks in Hk. rewrite allProps_forIn in Hk.
    assert (H1 : hasOwn (extractAttrs el) k = false).
    { destruct (hasOwn (extractAttrs el) k) eqn:E; [|reflexivity].
      apply hasOwn_In in E. tauto. }
    assert (H2 : hasOwn vnodeProps k = false).
    { destruct (hasOwn vnodeProps k) eqn:E; [|reflexivity].
      apply hasOwn_In in E. tauto. }
    rewrite extractAttrs_has in H1. unfold desiredAttr.
    rewrite (getOwn_missing _ _ H2). simpl.
    now destruct (attributeNamed el k).
Qed.

(** One pass of [diffProps] brings the attributes of the element to
    what the desired map asks for: a truthy value is present as its
    string, a falsy or missing one is absent; name, listeners and
    children are untouched.  This is for a registry without directives
    and special directives, an element whose attribute names are plain
    and distinct, and a desired map with plain names and safe
    values. *)
Theorem diffProps_reaches_desired
    (directives : string -> option hook) (specialDirectives : string -> bool)
    (vnodeProps : dict) (vnode : vnode) (t : string)
    (a : list (string * string)) (l : list (string * handler))
    (c : list dnode) :
  (forall k, directives k = None) ->
  (forall k, specialDirectives k = false) ->
  NoDup (List.map fst a) ->
  forallb plainName (List.map fst a) = true ->
  plainProps vnodeProps = true ->
  let el := DElem t a l c in
  let el' := fst (diffProps directives specialDirectives
                            el (extractAttrs el) vnodeProps vnode) in
  (exists a', el' = DElem t a' l c /\ NoDup (List.map fst a') /\
              forallb plainName (List.map fst a') = true) /\
  (forall k, attributeNamed el' k = desiredAttr vnodeProps k).
Proof.
  exact (@diffProps_settles_attributes directives specialDirectives
           vnodeProps vnode t a l c).
Qed.

Lemma diffProps_reaches_desired_witness :
  let vnodeProps := [("class", VStr "b"); ("tabindex", VNum 2);
                     ("hidden", VBool false)] in
  let el := DElem "DIV" [("class", "a"); ("id", "x"); ("hidden", "")]
                  [] [DText "t"] in
  let el' := fst (diffProps (fun _ => None) (fun _ => false)
                            el (extractAttrs el) vnodeProps
                            (h "div" (Some vnodeProps) None [])) in
  (exists a', el' = DElem "DIV" a' [] [DText "t"] /\
              NoDup (List.map fst a') /\
              forallb plainName (List.map fst a') = true) /\
  (forall k, attributeNamed el' k = desiredAttr vnodeProps k).
Proof.
  apply (@diffProps_reaches_desired (fun _ => None) (fun _ => false)
           [("class", VStr "b"); ("tabindex", VNum 2);
            ("hidden", VBool false)]
           (h "div" (Some [("class", VStr "b"); ("tabindex", VNum 2);
                           ("hidden", VBool false)]) None [])
           "DIV" [("class", "a"); ("id", "x"); ("hidden", EmptyString)]
           [] [DText "t"]).
  - reflexivity.
  - reflexivity.
  - repeat constructor; simpl; intuition discriminate.
  - reflexivity.
  - reflexivity.
Defined.

(** An element whose attributes already are what the desired map asks
    for, all desired values being non-empty strings, is left alone:
    [diffProps] makes no call. *)
Lemma diffProps_settled
    (directives : string -> option hook) (specialDirectives : string -> bool)
    (vnodeProps : dict) (vnode : vnode) (el : dnode) :
  (forall k, directives k = None) ->
  (forall k, specialDirectives k = false) ->
  NoDup (List.map fst (Dom.attributes el)) ->
  stringValued vnodeProps = true ->
  (forall k, attributeNamed el k = desiredAttr vnodeProps k) ->
  diffProps directives specialDirectives el (extractAttrs el) vnodeProps vnode
  = (el, []).
Proof.
  intros Hd Hs Hnd Hstr Hagree. unfold diffProps.
  apply (fold_left_invariant
           (diffProp directives specialDirectives (extractAttrs el)
                     vnodeProps vnode
                     (allPropsOf (extractAttrs el) vnodeProps))
           (fun acc => acc = (el, []))); [reflexivity|].
  intros x k Hk ->. apply allProps_forIn in Hk.
  unfold diffProp. rewrite Hd, Hs. cbn [isSome]. rewrite !orb_false_r.
  rewrite (extractAttrs_get _ k Hnd), Hagree.
  destruct (hasOwn vnodeProps k) eqn:Hv.
  - destruct (stringValued_get _ _ Hstr Hv) as (s & Es & Ts).
    unfold desiredAttr. rewrite Es, Ts. cbn [negb toStr attrValue].
    rewrite Ts. simpl. now rewrite String.eqb_refl.
  - exfalso. destruct Hk as [Hk|Hk].
    + apply hasOwn_In in Hk. rewrite extractAttrs_has, Hagree in Hk.
      unfold desiredAttr in Hk. rewrite (getOwn_missing _ _ Hv) in Hk.
      discriminate Hk.
    + apply hasOwn_In in Hk. congruence.
Qed.

(** A second pass of [diffProps] with the same desired map makes no
    call and changes nothing, when every desired value is a non-empty
    string; as before there is no directive and no special directive,
    and the names of the attributes and of the desired map are
    plain. *)
Theorem diffProps_second_pass_silent
    (directives : string -> option hook) (specialDirectives : string -> bool)
    (vnodeProps : dict) (vnode : vnode) (t : string)
    (a : list (string * string)) (l : list (string * handler))
    (c : list dnode) :
  (forall k, directives k = None) ->
  (forall k, specialDirectives k = false) ->
  NoDup (List.map fst a) ->
  forallb plainName (List.map fst a) = true ->
  plainProps vnodeProps = true ->
  stringValued vnodeProps = true ->
  let el := DElem t a l c in
  let el' := fst (diffProps directives specialDirectives
                            el (extractAttrs el) vnodeProps vnode) in
  diffProps directives specialDirectives el' (extractAttrs el')
            vnodeProps vnode
  = (el', []).
Proof.
  intros Hd Hs Hnd Hpn Hpp Hstr el el'.
  destruct (@diffProps_settles_attributes directives specialDirectives
              vnodeProps vnode t a l c Hd Hs Hnd Hpn Hpp)
    as ((a' & Ea & Hnd' & _) & Hget).
  apply diffProps_settled; try assumption.
  unfold el', el. rewrite Ea. exact Hnd'.
Qed.

Lemma diffProps_second_pass_silent_witness :
  let vnodeProps := [("class", VStr "b"); ("title", VStr "t")] in
  let vnode := h "div" (Some vnodeProps) None [] in
  let el := DElem "DIV" [("class", "a"); ("id", "x")] [] [] in
  let el' := fst (diffProps (fun _ => None) (fun _ => false)
                            el (extractAttrs el) vnodeProps vnode) in
  diffProps (fun _ => None) (fun _ => false) el' (extractAttrs el')
            vnodeProps vnode
  = (el', []).
Proof.
  apply (@diffProps_second_pass_silent (fun _ => None) (fun _ => false)
           [("class", VStr "b"); ("title", VStr "t")]
           (h "div" (Some [("class", VStr "b"); ("title", VStr "t")]) None [])
           "DIV" [("class", "a"); ("id", "x")] [] []).
  - reflexivity.
  - reflexivity.
  - repeat constructor; simpl; intuition discriminate.
  - reflexivity.
  - reflexivity.
  - reflexivity.
Defined.

Lemma extractAttrs_strings (n : dnode) (k : string) :
  getOwn (extractAttrs n) k = VUndefined \/
  exists s, getOwn (extractAttrs n) k = VStr s.
Proof.
  destruct n as [s|t a l c]; simpl; [now left|].
  assert (H : forall d,
             (getOwn d k = VUndefined \/ exists s, getOwn d k = VStr s) ->
             getOwn (fold_left
                       (fun attrs kv => setOwn attrs (fst kv) (VStr (snd kv)))
                       a d) k = VUndefined \/
             exists s,
               getOwn (fold_left
                         (fun attrs kv => setOwn attrs (fst kv) (VStr (snd kv)))
                         a d) k = VStr s).
  { induction a as [|[k0 v0] a IH]; intros d Hd; simpl; [exact Hd|].
    apply IH. rewrite getOwn_setOwn.
    destruct (k0 =? k); [right; eauto | exact Hd]. }
  apply H. now left.
Qed.

(** With no directive registered, a key that is no special directive
    and whose desired value is truthy but not a string (a number,
    [true]) never compares equal to what the element holds, so
    [setAttribute] is called for it on every pass, whatever the
    element's current state.  The keys of the desired map are
    ordinary. *)
Theorem diffProps_resets_non_strings
    (directives : string -> option hook) (specialDirectives : string -> bool)
    (tagName : string) (attributes : list (string * string))
    (listeners : list (string * handler)) (childNodes : list dnode)
    (vnodeProps : dict) (vnode : vnode) (k : string) :
  let node := DElem tagName attributes listeners childNodes in
  (forall k', directives k' = None) -> specialDirectives k = false ->
  forallb ordinaryKey (keys vnodeProps) = true ->
  In k (keys vnodeProps) ->
  truthy (getOwn vnodeProps k) = true ->
  (forall s, getOwn vnodeProps k <> VStr s) ->
  exists el,
    In (SetAttribute el k (getOwn vnodeProps k))
       (snd (diffProps directives specialDirectives
                       node (extractAttrs node) vnodeProps vnode)).
Proof.
  intros node Hd' Hs _ Hk Ht Hns. pose proof (Hd' k) as Hd.
  destruct (@diffProps_at_key directives specialDirectives
              (extractAttrs node) vnodeProps vnode node k (or_intror Hk))
    as (t1 & el & t2 & E).
  exists el. rewrite E, !in_app_iff. right. left.
  unfold turn, diffProp. rewrite Hd, Hs, Ht. cbn [isSome negb orb].
  assert (C : negb (truthy (getOwn (extractAttrs node) k))
              || negb (strictEq (getOwn (extractAttrs node) k)
                                (getOwn vnodeProps k)) = true).
  { destruct (extractAttrs_strings node k) as [-> | (s & ->)];
      [reflexivity|].
    destruct (strictEq (VStr s) (getOwn vnodeProps k)) eqn:Eq.
    - apply strictEq_string in Eq. now apply Hns in Eq.
    - now rewrite orb_true_r. }
  rewrite C. simpl. now left.
Qed.

Lemma diffProps_resets_non_strings_witness :
  let vnodeProps := [("tabindex", VNum 2)] in
  let node := DElem "DIV" [("tabindex", "2")] [] [] in
  exists el,
    In (SetAttribute el "tabindex" (getOwn vnodeProps "tabindex"))
       (snd (diffProps (fun _ => None) (fun _ => false)
                       node (extractAttrs node) vnodeProps
                       (h "div" (Some vnodeProps) None []))).
Proof.
  apply (@diffProps_resets_non_strings (fun _ => None) (fun _ => false)
           "DIV" [("tabindex", "2")] [] []
           [("tabindex", VNum 2)]
           (h "div" (Some [("tabindex", VNum 2)]) None [])
           "tabindex").
  - reflexivity.
  - reflexivity.
  - reflexivity.
  - simpl. auto.
  - reflexivity.
  - simpl. discriminate.
Defined.

(** ** The materializer, the constructor and the tree differ *)

(** Materializing mirrors the tree: a text leaf gives a text node with
    its [val] (children of a text leaf are not materialized); any other
    node gives an element named after its type, whose children are the
    materializations of the node's children, in order. *)
Theorem createNodeFromVNode_mirrors (events : string -> bool) (v : vnode) :
  fst (createNodeFromVNode events v) =
  if type v =? "#text" then DText (val v)
  else DElem (Str.toUpperCase (type v)) [] []
             (List.map (fun c => fst (createNodeFromVNode events c))
                       (children v)).
Proof.
  rewrite createNodeFromVNode_rendered. destruct v as [t s p c m].
  cbn [fst rendered type val children].
  destruct (t =? "#text"); [reflexivity|]. f_equal.
  apply map_ext. intros x. now rewrite createNodeFromVNode_rendered.
Qed.

Lemma hStep_acc (meta : option metadata) (acc : list vnode) (arg : harg) :
  hStep meta acc arg = acc ++ argChildren meta arg.
Proof. now destruct arg. Qed.

Lemma hStep_fold (meta : option metadata) (args : list harg)
    (acc : list vnode) :
  fold_left (hStep meta) args acc = acc ++ flat_map (argChildren meta) args.
Proof.
  revert acc. induction args as [|x args IH]; intros acc; simpl.
  - now rewrite app_nil_r.
  - now rewrite IH, hStep_acc, app_assoc.
Qed.

(** The children of [h(tag, attrs, meta, ...args)] are what the
    arguments contribute, in the order of the arguments; a text leaf
    made from a string or from [null] carries the metadata of the node
    under construction, so it is gated with it. *)
Theorem h_children_in_order (tag : string) (attrs : option dict)
    (m : option metadata) (args : list harg) :
  let node := h tag attrs m args in
  children node = flat_map (argChildren m) args /\
  (forall l, argChildren m (AArray l) = l) /\
  (forall v, argChildren m (ANode v) = [v]) /\
  (forall s, argChildren m (AString s) =
             [VNode "#text" s [] [] (meta node)]) /\
  argChildren m ANull = [VNode "#text" EmptyString [] [] (meta node)].
Proof.
  cbv zeta. split.
  - rewrite h_children, hStep_fold. reflexivity.
  - now destruct m.
Qed.

Lemma diffNode_one_position (events : string -> bool)
    (directives : string -> option hook) (specialDirectives : string -> bool)
    (v : vnode) (kids : list dnode) (i : nat) :
  let kids' := fst (diffNode events directives specialDirectives v kids i) in
  (forall j, j <> i -> j < length kids ->
             nth_error kids' j = nth_error kids j) /\
  (i < length kids -> length kids' = length kids) /\
  (length kids <= i ->
   kids' = if gateOpen v
           then kids ++ [fst (createNodeFromVNode events v)]
           else kids).
Proof.
  cbv zeta. rewrite diffNode_eq, createNodeFromVNode_rendered.
  unfold gateOpen. cbn [fst].
  destruct (shouldRender (meta v)).
  - destruct (nth_error kids i) as [node|] eqn:E.
    + assert (Hi : i < length kids) by (apply nth_error_Some; congruence).
      repeat match goal with
             | |- context [if ?b then _ else _] => destruct b
             end; cbv zeta; cbn [fst];
        (split; [intros j Hj Hl; try reflexivity; now apply replaceAt_other|]);
        (split; [intros _; try reflexivity; now apply replaceAt_length|]);
        intros Hle; lia.
    + apply nth_error_None in E. cbn [fst]. split; [|split].
      * intros j Hj Hl. now apply nth_error_app1.
      * intros Hi. lia.
      * reflexivity.
  - cbn [fst]. split; [|split]; intros; reflexivity.
Qed.

(** With no directive registered, so that no hook runs, [diffNode] for
    a tame desired tree acts on one position of the parent: every
    other child stays what it was; when the live node is present the
    child list keeps its length, and when it is absent the list is
    unchanged or grows by the materialized node. *)
Theorem diffNode_frame (events : string -> bool)
    (directives : string -> option hook) (specialDirectives : string -> bool)
    (v : vnode) (kids : list dnode) (i : nat) :
  (forall k, directives k = None) -> tame v = true ->
  let kids' := fst (diffNode events directives specialDirectives v kids i) in
  (forall j, j <> i -> j < length kids ->
             nth_error kids' j = nth_error kids j) /\
  (i < length kids -> length kids' = length kids) /\
  (length kids <= i ->
   kids' = if gateOpen v
           then kids ++ [fst (createNodeFromVNode events v)]
           else kids).
Proof.
  intros _ _.
  exact (@diffNode_one_position events directives specialDirectives v kids i).
Qed.

Lemma diffNode_frame_witness :
  let v := h "p" (Some [("class", VStr "a")]) None [AString "new"] in
  let kids := [DText "x"; DElem "P" [("id", "p")] [] [DText "old"];
               DElem "HR" [] [] []] in
  let kids' := fst (diffNode (fun _ => false) (fun _ => None)
                             (fun _ => false) v kids 1) in
  (forall j, j <> 1 -> j < length kids ->
             nth_error kids' j = nth_error kids j) /\
  (1 < length kids -> length kids' = length kids) /\
  (length kids <= 1 ->
   kids' = if gateOpen v
           then kids ++ [fst (createNodeFromVNode (fun _ => false) v)]
           else kids).
Proof.
  apply (@diffNode_frame (fun _ => false) (fun _ => None) (fun _ => false)
           (h "p" (Some [("class", VStr "a")]) None [AString "new"])
           [DText "x"; DElem "P" [("id", "p")] [] [DText "old"];
            DElem "HR" [] [] []] 1).
  - reflexivity.
  - reflexivity.
Defined.

Section Children.

Variable events : string -> bool.
Variable directives : string -> option hook.
Variable specialDirectives : string -> bool.

Local Abbreviation diffNodeK := (diffNode events directives specialDirectives).
Local Abbreviation diffChildrenK :=
  (diffChildren events directives specialDirectives).
Local Abbreviation materialize := (fun v => fst (createNodeFromVNode events v)).

Lemma diffChildren_mount (vs : list vnode) (j : nat) (ks : list dnode) :
  length ks <= j ->
  diffChildrenK vs j ks =
  (ks ++ List.map materialize (filter gateOpen vs),
   List.map (fun v => AppendChild (materialize v)) (filter gateOpen vs)).
Proof.
  revert j ks. induction vs as [|v vs IH]; intros j ks Hj.
  - rewrite diffChildren_nil, removeRest_done by exact Hj.
    simpl. now rewrite app_nil_r.
  - rewrite diffChildren_cons, diffNode_eq.
    assert (E : nth_error ks j = None) by now apply nth_error_None.
    rewrite E. cbn [filter].
    change (shouldRender (meta v)) with (gateOpen v).
    destruct (gateOpen v); cbn [fst snd].
    + rewrite IH by (rewrite length_app; simpl; lia).
      cbn [fst snd List.map app]. rewrite createNodeFromVNode_rendered.
      cbn [fst]. now rewrite <- app_assoc.
    + rewrite IH by lia. reflexivity.
Qed.

Lemma removeAt_middle (pre suf : list dnode) (x : dnode) :
  Dom.removeAt (length pre) (pre ++ x :: suf) = pre ++ suf.
Proof.
  unfold Dom.removeAt. induction pre as [|y pre IH].
  - reflexivity.
  - cbn [length firstn skipn app]. f_equal. exact IH.
Qed.

(** Past the desired children the loop removes the child at [i] and
    moves on to [i + 1], while the list has closed up: every other
    child of what was left is removed. *)
Lemma removeRest_every_other (f : nat) (pre suf : list dnode) :
  length suf <= f ->
  removeRest f (length pre) (pre ++ suf) =
  (pre ++ odds suf, List.map RemoveChild (evens suf)).
Proof.
  revert pre suf. induction f as [|f IH]; intros pre suf Hf.
  - destruct suf; [|simpl in Hf; lia]. reflexivity.
  - cbn [removeRest]. destruct suf as [|x suf].
    + cbn [odds evens List.map]. rewrite !app_nil_r, Nat.ltb_irrefl.
      reflexivity.
    + assert (Hlt : (length pre <? length (pre ++ x :: suf))%nat = true).
      { apply Nat.ltb_lt. rewrite length_app. simpl. lia. }
      rewrite Hlt. unfold diffMissing.
      rewrite nth_error_app2, Nat.sub_diag by lia. cbn [nth_error].
      rewrite removeAt_middle.
      destruct suf as [|y suf].
      * cbn [odds evens List.map]. rewrite !app_nil_r.
        rewrite removeRest_done by lia. reflexivity.
      * specialize (IH (pre ++ [y]) suf).
        rewrite length_app, Nat.add_1_r, <- app_assoc in IH.
        cbn [app] in IH. rewrite IH by (simpl in Hf; lia).
        cbn [evens odds List.map app]. now rewrite <- app_assoc.
Qed.

Lemma skipn_agree (n : nat) (l l' : list dnode) :
  (forall j, n <= j -> nth_error l j = nth_error l' j) ->
  skipn n l = skipn n l'.
Proof.
  intros H. apply nth_error_ext. intros m.
  rewrite !nth_error_skipn. apply H. lia.
Qed.

(** With a live child present at every desired position, the loop
    keeps the children past the desired ones until it has gone through
    the desired ones, and then removes every other one of them. *)
Lemma diffChildren_surplus (vs : list vnode) (j : nat) (ks : list dnode) :
  j + length vs <= length ks ->
  exists pre t,
    length pre = j + length vs /\
    diffChildrenK vs j ks =
    (pre ++ odds (skipn (j + length vs) ks),
     t ++ List.map RemoveChild (evens (skipn (j + length vs) ks))).
Proof.
  revert j ks. induction vs as [|v vs IH]; intros j ks Hj.
  - simpl in Hj. rewrite Nat.add_0_r in *.
    assert (Hks : ks = firstn j ks ++ skipn j ks)
      by (symmetry; apply firstn_skipn).
    assert (Hlen : length (firstn j ks) = j)
      by (rewrite length_firstn; lia).
    remember (firstn j ks) as pre eqn:Epre.
    remember (skipn j ks) as suf eqn:Esuf.
    exists pre, []. split; [exact Hlen|].
    rewrite diffChildren_nil, Hks. clear Epre Esuf Hks Hj. subst j.
    rewrite (@removeRest_fuel _ (length suf)).
    + now rewrite removeRest_every_other by lia.
    + rewrite length_app. lia.
    + rewrite length_app. lia.
  - simpl in Hj. rewrite diffChildren_cons.
    destruct (diffNode_one_position events directives specialDirectives v ks j)
      as (Hother & Hlen & _).
    set (ks1 := fst (diffNodeK v ks j)) in *.
    destruct (IH (S j) ks1) as (pre & t & Hpre & E).
    { rewrite Hlen by lia. lia. }
    exists pre, (snd (diffNodeK v ks j) ++ t). rewrite E. cbn [fst snd].
    replace (j + length (v :: vs)) with (S j + length vs) by (simpl; lia).
    split; [exact Hpre|].
    assert (Hs : skipn (S j + length vs) ks1 = skipn (S j + length vs) ks).
    { apply skipn_agree. intros n Hn.
      destruct (Nat.lt_ge_cases n (length ks)) as [Hl|Hl].
      - apply Hother; lia.
      - assert (H1 : nth_error ks n = None) by now apply nth_error_None.
        rewrite H1. apply nth_error_None. rewrite Hlen by lia. exact Hl. }
    now rewrite Hs, app_assoc.
Qed.

End Children.

(** The loop of [diff] over the children, as written, when the live
    element has no child: every rendered desired child is materialized
    and appended, in order; a gated child is passed over, so that the
    children after it land one position earlier. *)
Theorem childLoop_mounts (events : string -> bool)
    (directives : string -> option hook) (specialDirectives : string -> bool)
    (vs : list vnode) (fuel : nat) :
  2 * length vs <= fuel ->
  childLoop events directives specialDirectives fuel vs 0 [] =
  Some (List.map (fun v => fst (createNodeFromVNode events v))
                 (filter gateOpen vs),
        List.map (fun v => AppendChild (fst (createNodeFromVNode events v)))
                 (filter gateOpen vs)).
Proof.
  intros Hf.
  pose proof (@childLoop_diffChildren events directives specialDirectives
                [] vs fuel []) as E.
  cbn [app length] in E. rewrite E by lia.
  now rewrite diffChildren_mount by (simpl; lia).
Qed.

Lemma childLoop_mounts_witness :
  let vs := [h "p" None None [AString "a"];
             h "hr" None (Some (Meta false [])) [];
             h "p" None None [AString "b"]] in
  childLoop (fun _ => false) (fun _ => None) (fun _ => false) 6 vs 0 [] =
  Some (List.map (fun v => fst (createNodeFromVNode (fun _ => false) v))
                 (filter gateOpen vs),
        List.map (fun v => AppendChild
                             (fst (createNodeFromVNode (fun _ => false) v)))
                 (filter gateOpen vs)).
Proof.
  apply (@childLoop_mounts (fun _ => false) (fun _ => None) (fun _ => false)
           [h "p" None None [AString "a"];
            h "hr" None (Some (Meta false [])) [];
            h "p" None None [AString "b"]] 6).
  simpl. lia.
Defined.

(** The loop of [diff] over the children, as written, with no
    directive registered, tame desired children, and a live element
    that has at least as many children as are desired: the desired
    positions are reconciled in place, and of the live children past
    them every other one is removed, the first, the third and so on,
    because the index advances while the live list closes up. *)
Theorem childLoop_removes_every_other (events : string -> bool)
    (directives : string -> option hook) (specialDirectives : string -> bool)
    (vs : list vnode) (ks : list dnode) (fuel : nat) :
  (forall k, directives k = None) ->
  forallb tame vs = true ->
  length vs <= length ks ->
  2 * length vs + length ks <= fuel ->
  exists pre t,
    length pre = length vs /\
    childLoop events directives specialDirectives fuel vs 0 ks =
    Some (pre ++ odds (skipn (length vs) ks),
          t ++ List.map RemoveChild (evens (skipn (length vs) ks))).
Proof.
  intros _ _ Hl Hf.
  destruct (@diffChildren_surplus events directives specialDirectives
              vs 0 ks Hl) as (pre & t & Hpre & E).
  exists pre, t. split; [exact Hpre|].
  pose proof (@childLoop_diffChildren events directives specialDirectives
                [] vs fuel ks Hf) as E'.
  cbn [app length] in E'. now rewrite E', E.
Qed.

Lemma childLoop_removes_every_other_witness :
  let vs := [h "li" (Some [("class", VStr "a")]) None [AString "one"]] in
  let ks := [DElem "LI" [] [] [DText "old"]; DText "b"; DText "c";
             DText "d"] in
  exists pre t,
    length pre = length vs /\
    childLoop (fun _ => false) (fun _ => None) (fun _ => false) 6 vs 0 ks =
    Some (pre ++ odds (skipn (length vs) ks),
          t ++ List.map RemoveChild (evens (skipn (length vs) ks))).
Proof.
  apply (@childLoop_removes_every_other
           (fun _ => false) (fun _ => None) (fun _ => false)
           [h "li" (Some [("class", VStr "a")]) None [AString "one"]]
           [DElem "LI" [] [] [DText "old"]; DText "b"; DText "c"; DText "d"]
           6).
  - reflexivity.
  - reflexivity.
  - simpl. lia.
  - simpl. lia.
Defined.

(** ** One pass of the tree differ over a tree of the same shape *)

Lemma unique_NoDup (l : list string) : unique l = true -> NoDup l.
Proof.
  induction l as [|x l IH]; simpl; intros H; [constructor|].
  apply andb_prop in H. destruct H as [Hx Hl].
  constructor; [|now apply IH].
  intros Hin. apply negb_true_iff in Hx.
  assert (E : existsb (String.eqb x) l = true).
  { apply existsb_exists. exists x. split; [exact Hin|].
    apply String.eqb_refl. }
  congruence.
Qed.

Lemma alike_element (v : vnode) (t : string) (a : list (string * string))
    (l : list (string * handler)) (c : list dnode) :
  alike v (DElem t a l c) = true ->
  type v <> "#text" /\ Str.toLowerCase t = type v /\
  NoDup (List.map fst a) /\
  forallb plainName (List.map fst a) = true /\
  Forall2 (fun v' n' => alike v' n' = true) (children v) c.
Proof.
  destruct v as [ty s p vs m]. cbn [alike type children].
  intros H. apply andb_prop in H. destruct H as [H Hc].
  apply andb_prop in H. destruct H as [H Hp].
  apply andb_prop in H. destruct H as [H Hu].
  apply andb_prop in H. destruct H as [Ht Hl].
  apply negb_true_iff, String.eqb_neq in Ht. apply String.eqb_eq in Hl.
  repeat split; [exact Ht | exact Hl | now apply unique_NoDup | exact Hp|].
  clear -Hc. revert c Hc.
  induction vs as [|v' vs IH]; intros [|n' c] Hc; try discriminate Hc.
  - constructor.
  - apply andb_prop in Hc. destruct Hc as [H1 H2].
    constructor; [exact H1 | now apply IH].
Qed.

Lemma conforms_element (v : vnode) (t : string) (a : list (string * string))
    (l : list (string * handler)) (c : list dnode) :
  type v <> "#text" -> Str.toLowerCase t = type v ->
  (forall k, getAttr a k = desiredAttr (props v) k) ->
  Forall2 conforms (children v) c ->
  conforms v (DElem t a l c).
Proof.
  destruct v as [ty s p vs m]. cbn [conforms type children props].
  intros Ht Hl Ha Hc. repeat split; try assumption.
  clear -Hc. induction Hc as [|v' n' vs c H1 _ IH]; [exact I|].
  split; assumption.
Qed.

Lemma rendersFully_inv (v : vnode) :
  rendersFully v = true ->
  shouldRender (meta v) = true /\ (type v =? EmptyString) = false /\
  Forall (fun c => rendersFully c = true) (children v).
Proof.
  destruct v as [ty s p vs m]. cbn [rendersFully type children meta].
  unfold gateOpen. cbn [meta]. intros H.
  apply andb_prop in H. destruct H as [H Hc].
  apply andb_prop in H. destruct H as [Hg Ht].
  apply negb_true_iff in Ht. repeat split; try assumption.
  apply Forall_forall. now apply forallb_forall.
Qed.

Lemma plainTree_inv (v : vnode) :
  plainTree v = true ->
  plainProps (props v) = true /\
  Forall (fun c => plainTree c = true) (children v).
Proof.
  destruct v as [ty s p vs m]. cbn [plainTree type props children].
  intros H. apply andb_prop in H. destruct H as [H Hc].
  apply andb_prop in H. destruct H as [_ Hp].
  split; [exact Hp|]. apply Forall_forall. now apply forallb_forall.
Qed.

Lemma replaceAt_middle (pre suf : list dnode) (x n : dnode) :
  Dom.replaceAt (length pre) x (pre ++ n :: suf) = pre ++ x :: suf.
Proof.
  unfold Dom.replaceAt. induction pre as [|y pre IH].
  - reflexivity.
  - cbn [length firstn skipn app]. f_equal. exact IH.
Qed.

Section Conforms.

Variable events : string -> bool.
Variable directives : string -> option hook.
Variable specialDirectives : string -> bool.
Hypothesis no_directive : forall k, directives k = None.
Hypothesis no_special : forall k, specialDirectives k = false.

Local Abbreviation diffNodeK := (diffNode events directives specialDirectives).
Local Abbreviation diffChildrenK :=
  (diffChildren events directives specialDirectives).

(** One pass over a live node of the right shape leaves, at the same
    position, a node that is what the desired node describes, and
    neither adds, removes nor replaces a node. *)
Let settles (v : vnode) : Prop :=
  rendersFully v = true -> plainTree v = true ->
  forall node kids i,
    alike v node = true -> nth_error kids i = Some node ->
    (exists node',
        fst (diffNodeK v kids i) = Dom.replaceAt i node' kids /\
        conforms v node') /\
    (forall e, In e (snd (diffNodeK v kids i)) -> structural e = false).

Lemma diffChildren_settles (vs : list vnode) :
  Forall settles vs ->
  forall pre cs,
    Forall (fun c => rendersFully c = true) vs ->
    Forall (fun c => plainTree c = true) vs ->
    Forall2 (fun v' n' => alike v' n' = true) vs cs ->
    (exists cs',
        fst (diffChildrenK vs (length pre) (pre ++ cs)) = pre ++ cs' /\
        Forall2 conforms vs cs') /\
    (forall e, In e (snd (diffChildrenK vs (length pre) (pre ++ cs))) ->
               structural e = false).
Proof.
  induction 1 as [|v vs Hv _ IH]; intros pre cs Hr Hp Ha.
  - inversion Ha; subst.
    rewrite diffChildren_nil, app_nil_r, removeRest_done by lia.
    split; [exists []; split; [now rewrite app_nil_r | constructor]|].
    intros e [].
  - inversion Ha as [|? n ? cs0 Hn Hcs]; subst.
    inversion Hr as [|? ? Hrv Hrs]; subst.
    inversion Hp as [|? ? Hpv Hps]; subst.
    destruct (Hv Hrv Hpv n (pre ++ n :: cs0) (length pre) Hn)
      as ((n' & E & Hc) & Hq).
    { rewrite nth_error_app2, Nat.sub_diag by lia. reflexivity. }
    rewrite replaceAt_middle in E.
    rewrite diffChildren_cons. cbn [fst snd]. rewrite E.
    destruct (IH (pre ++ [n']) cs0 Hrs Hps Hcs)
      as ((cs' & E' & Hcs') & Hq').
    rewrite length_app, Nat.add_1_r, <- app_assoc in E', Hq'.
    cbn [app] in E', Hq'.
    split.
    + exists (n' :: cs'). split; [|now constructor].
      rewrite E', <- app_assoc. reflexivity.
    + intros e. rewrite in_app_iff. intros [H|H]; [now apply Hq|].
      now apply Hq'.
Qed.

Lemma diffNode_settles (v : vnode) : settles v.
Proof.
  induction v as [ty s p vs m IH] using vnode_ind.
  intros Hr Hpt node kids i Ha Hi.
  destruct (rendersFully_inv _ Hr) as (Hg & Hne & Hrs).
  destruct (plainTree_inv _ Hpt) as (Hpp & Hps).
  cbn [type meta children props] in Hg, Hne, Hrs, Hpp, Hps.
  rewrite diffNode_eq. cbn [type val props children meta].
  rewrite Hg, Hi.
  destruct node as [d|t a l c].
  - cbn [alike type] in Ha. apply String.eqb_eq in Ha. subst ty.
    split.
    + exists (DText s). split; [reflexivity|]. cbn. auto.
    + cbn. intros e [<-|[]]. reflexivity.
  - destruct (alike_element _ _ _ _ _ Ha) as (Ht & Hl & Hnd & Hpn & Hc).
    cbn [type children] in Ht, Hl, Hc.
    cbn [Dom.nodeName]. rewrite Hl, String.eqb_refl. cbn [negb].
    apply String.eqb_neq in Ht. rewrite Ht, andb_false_r, Hne.
    cbn [negb]. cbv zeta. cbn [fst snd].
    destruct (@diffProps_settles_attributes directives specialDirectives
                p (VNode ty s p vs m) t a l c no_directive no_special
                Hnd Hpn Hpp)
      as ((a' & Ea & _) & Hget).
    destruct (@diffChildren_settles vs IH [] c Hrs Hps Hc)
      as ((cs' & E & Hcs) & Hq).
    cbn [length app] in E, Hq.
    split.
    + rewrite Ea in *. cbn [Dom.childNodes Dom.setChildNodes].
      rewrite E.
      exists (DElem t a' l cs'). split; [reflexivity|].
      apply conforms_element; cbn [type props children]; try assumption.
      now apply String.eqb_neq.
    + intros e. rewrite in_app_iff, in_map_iff.
      intros [H | (e' & <- & H)].
      * now apply (diffProps_not_structural _ _ _ _ _ _ _ H).
      * cbn [structural]. rewrite Ea in H. cbn [Dom.childNodes] in H.
        now apply Hq.
Qed.

End Conforms.

Lemma diff_same_shape (events : string -> bool)
    (directives : string -> option hook) (specialDirectives : string -> bool)
    (v : vnode) (kids : list dnode) (i : nat) (node : dnode) :
  (forall k, directives k = None) ->
  (forall k, specialDirectives k = false) ->
  rendersFully v = true ->
  plainTree v = true ->
  alike v node = true ->
  nth_error kids i = Some node ->
  exists node' t,
    diff events directives specialDirectives kids i (Some v)
    = Some (Dom.replaceAt i node' kids, t) /\
    conforms v node' /\
    (forall e, In e t -> structural e = false).
Proof.
  intros Hd Hs Hr Hp Ha Hi.
  destruct (@diffNode_settles events directives specialDirectives Hd Hs
              v Hr Hp node kids i Ha Hi) as ((node' & E & Hc) & Hq).
  exists node', (snd (diffNode events directives specialDirectives v kids i)).
  split; [|split; [exact Hc | exact Hq]].
  unfold diff. rewrite <- E. now rewrite <- surjective_pairing.
Qed.

(** Reconciling a live node that has the shape of the desired tree
    (same tags, same numbers of children, plain and distinct attribute
    names), with every node rendered, no directive or special
    directive registered, and a desired tree whose types are element
    names and whose attribute maps have plain names and safe values,
    leaves at the same position a node that is what the desired tree
    describes: its texts, its attributes and its children, all the way
    down; and no node is added, removed or replaced on the way. *)
Theorem diff_conforms (events : string -> bool)
    (directives : string -> option hook) (specialDirectives : string -> bool)
    (v : vnode) (kids : list dnode) (i : nat) (node : dnode) :
  (forall k, directives k = None) ->
  (forall k, specialDirectives k = false) ->
  rendersFully v = true ->
  plainTree v = true ->
  alike v node = true ->
  nth_error kids i = Some node ->
  exists node' t,
    diff events directives specialDirectives kids i (Some v)
    = Some (Dom.replaceAt i node' kids, t) /\
    conforms v node' /\
    (forall e, In e t -> structural e = false).
Proof. exact (@diff_same_shape events directives specialDirectives v kids i node). Qed.

Lemma diff_conforms_witness :
  let v := h "div" (Some [("class", VStr "b")]) None
             [ANode (h "span" (Some [("id", VStr "s")]) None [AString "new"]);
              AString "tail"] in
  let node := DElem "DIV" [("class", "a"); ("title", "t")] []
                    [DElem "SPAN" [] [] [DText "old"]; DText "x"] in
  exists node' t,
    diff (fun _ => false) (fun _ => None) (fun _ => false)
         [DText "before"; node] 1 (Some v)
    = Some (Dom.replaceAt 1 node' [DText "before"; node], t) /\
    conforms v node' /\
    (forall e, In e t -> structural e = false).
Proof.
  apply (@diff_conforms (fun _ => false) (fun _ => None) (fun _ => false)
           (h "div" (Some [("class", VStr "b")]) None
              [ANode (h "span" (Some [("id", VStr "s")]) None
                        [AString "new"]);
               AString "tail"])
           [DText "before";
            DElem "DIV" [("class", "a"); ("title", "t")] []
                  [DElem "SPAN" [] [] [DText "old"]; DText "x"]]
           1
           (DElem "DIV" [("class", "a"); ("title", "t")] []
                  [DElem "SPAN" [] [] [DText "old"]; DText "x"]));
    reflexivity.
Defined.

(** ** The template compiler *)

Lemma string_app_assoc (a b c : string) :
  ((a ++ b) ++ c)%string = (a ++ b ++ c)%string.
Proof. induction a as [|x a IH]; simpl; [reflexivity | now rewrite IH]. Qed.

Lemma string_app_nil_r (a : string) : (a ++ EmptyString)%string = a.
Proof. induction a as [|x a IH]; simpl; [reflexivity | now rewrite IH]. Qed.

Lemma noBrace_app (a b : string) :
  noBrace (a ++ b) = noBrace a && noBrace b.
Proof.
  induction a as [|x a IH]; simpl; [reflexivity|].
  rewrite IH. now rewrite andb_assoc.
Qed.

Lemma keyChar_not_brace (c : ascii) :
  Template.keyChar c = true -> (c =? "{")%char = false /\ (c =? "}")%char = false.
Proof.
  destruct c as [[] [] [] [] [] [] [] []]; simpl; intros H;
    try discriminate H; split; reflexivity.
Qed.

Lemma keyChars_noBrace (k : string) : keyChars k = true -> noBrace k = true.
Proof.
  induction k as [|c k IH]; simpl; [reflexivity|].
  intros H. apply andb_prop in H. destruct H as [Hc Hk].
  destruct (keyChar_not_brace _ Hc) as [-> _]. simpl. now apply IH.
Qed.

Lemma keyRun_key (k rest : string) :
  keyChars k = true ->
  Template.keyRun (k ++ String "}" rest) = (k, String "}" rest).
Proof.
  induction k as [|c k IH]; simpl; intros H.
  - reflexivity.
  - apply andb_prop in H. destruct H as [Hc Hk].
    now rewrite Hc, IH.
Qed.

Lemma matchAt_placeholder (k rest : string) :
  validKey k = true ->
  Template.matchAt (Template.placeholder k ++ rest) = Some (k, rest).
Proof.
  unfold validKey, Template.placeholder. intros H.
  apply andb_prop in H. destruct H as [Hne Hk].
  rewrite string_app_assoc. cbn [append Template.matchAt].
  rewrite string_app_assoc. cbn [append].
  rewrite keyRun_key by exact Hk.
  destruct k; [discriminate Hne | reflexivity].
Qed.

Lemma matchAt_no_brace (c : ascii) (s : string) :
  (c =? "{")%char = false -> Template.matchAt (String c s) = None.
Proof.
  intros H. unfold Template.matchAt.
  destruct c as [[] [] [] [] [] [] [] []]; try reflexivity; discriminate H.
Qed.

Lemma scan_skip (u w : string) :
  Template.scan (String.length u) (u ++ w) = Template.scan 0 w.
Proof.
  induction u as [|c u IH]; simpl; [reflexivity | exact IH].
Qed.

Lemma scan_text (text rest : string) :
  noBrace text = true ->
  Template.scan 0 (text ++ rest) = Template.scan 0 rest.
Proof.
  induction text as [|c text IH]; intros H; [reflexivity|].
  cbn [noBrace] in H. apply andb_prop in H. destruct H as [Hc Ht].
  apply negb_true_iff in Hc. cbn [append Template.scan].
  rewrite matchAt_no_brace by exact Hc. now apply IH.
Qed.

Lemma string_length_app (a b : string) :
  String.length (a ++ b) = String.length a + String.length b.
Proof. induction a as [|x a IH]; simpl; [reflexivity | now rewrite IH]. Qed.

Lemma scan_placeholder (key rest : string) :
  validKey key = true ->
  Template.scan 0 (Template.placeholder key ++ rest) =
  (Template.placeholder key, key) :: Template.scan 0 rest.
Proof.
  intros H. pose proof (matchAt_placeholder key rest H) as M.
  unfold Template.placeholder in *. rewrite string_app_assoc in *.
  cbn [append] in *. cbn [Template.scan]. rewrite M. f_equal.
  rewrite string_app_assoc.
  change (String "{" (key ++ "}}" ++ rest))%string
    with (("{" ++ key ++ "}}" ++ rest))%string.
  rewrite <- (string_app_assoc key "}}" rest).
  rewrite <- (string_app_assoc "{" (key ++ "}}") rest).
  replace (String.length key + 3)
    with (String.length ("{" ++ key ++ "}}")%string).
  - apply scan_skip.
  - cbn [append String.length]. rewrite string_length_app. simpl. lia.
Qed.

Lemma scan_written (pieces : list (string * string)) (last : string) :
  plainPieces pieces = true -> noBrace last = true ->
  Template.scan 0 (written pieces last) =
  List.map (fun tk => (Template.placeholder (snd tk), snd tk)) pieces.
Proof.
  intros Hp Hl. induction pieces as [|[text key] r IH].
  - simpl. rewrite <- (string_app_nil_r last).
    now rewrite scan_text.
  - cbn [plainPieces forallb fst snd] in Hp.
    apply andb_prop in Hp. destruct Hp as [Htk Hr].
    apply andb_prop in Htk. destruct Htk as [Ht Hk].
    cbn [written List.map fst snd].
    rewrite scan_text by exact Ht.
    rewrite scan_placeholder by exact Hk. f_equal. now apply IH.
Qed.

Lemma stripPrefix_app (p w : string) :
  Template.stripPrefix p (p ++ w) = Some w.
Proof.
  induction p as [|c p IH]; simpl.
  - now destruct w.
  - now rewrite Ascii.eqb_refl.
Qed.

Lemma replaceFirst_here (pat rep w : string) :
  Template.replaceFirst pat rep (pat ++ w) = (rep ++ w)%string.
Proof.
  destruct (pat ++ w)%string eqn:E; cbn [Template.replaceFirst];
    rewrite <- E, stripPrefix_app; reflexivity.
Qed.

Lemma replaceFirst_after (key rep u w : string) :
  noBrace u = true ->
  Template.replaceFirst (Template.placeholder key) rep
                        (u ++ Template.placeholder key ++ w) =
  (u ++ rep ++ w)%string.
Proof.
  induction u as [|c u IH]; intros H.
  - cbn [append]. apply replaceFirst_here.
  - cbn [noBrace] in H. apply andb_prop in H. destruct H as [Hc Hu].
    apply negb_true_iff in Hc.
    cbn [append Template.replaceFirst].
    assert (E : Template.stripPrefix (Template.placeholder key)
                  (String c (u ++ Template.placeholder key ++ w)) = None).
    { unfold Template.placeholder. cbn [append Template.stripPrefix].
      rewrite Ascii.eqb_sym, Hc. reflexivity. }
    rewrite E. f_equal. now apply IH.
Qed.

Section Compile.

Variable isString : bool.

Local Abbreviation code :=
  (if isString then Template.getConcat else Template.getCall).

Local Abbreviation step :=
  (fun (compiled : string) (mk : string * string) =>
     let '(match_, key) := mk in
     if isString
     then Template.replaceFirst match_ (Template.getConcat key) compiled
     else Template.replaceFirst match_ (Template.getCall key) compiled).

Lemma code_noBrace (key : string) :
  keyChars key = true -> noBrace (code key) = true.
Proof.
  intros H. apply keyChars_noBrace in H.
  destruct isString; unfold Template.getConcat, Template.getCall;
    rewrite ?noBrace_app, H; reflexivity.
Qed.

Lemma fold_written (pieces : list (string * string)) (last pre : string) :
  plainPieces pieces = true -> noBrace pre = true ->
  fold_left step
            (List.map (fun tk => (Template.placeholder (snd tk), snd tk))
                      pieces)
            (pre ++ written pieces last)%string =
  (pre ++ expanded code pieces last)%string.
Proof.
  revert pre. induction pieces as [|[text key] r IH]; intros pre Hp Hpre.
  - reflexivity.
  - cbn [plainPieces forallb fst snd] in Hp.
    apply andb_prop in Hp. destruct Hp as [Htk Hr].
    apply andb_prop in Htk. destruct Htk as [Ht Hk].
    unfold validKey in Hk. apply andb_prop in Hk. destruct Hk as [_ Hk].
    cbn [written expanded List.map fold_left fst snd].
    rewrite <- (string_app_assoc pre text).
    assert (Hu : noBrace (pre ++ text) = true)
      by (rewrite noBrace_app, Hpre, Ht; reflexivity).
    assert (E : (if isString
                 then Template.replaceFirst (Template.placeholder key)
                        (Template.getConcat key)
                        ((pre ++ text) ++ Template.placeholder key
                                       ++ written r last)
                 else Template.replaceFirst (Template.placeholder key)
                        (Template.getCall key)
                        ((pre ++ text) ++ Template.placeholder key
                                       ++ written r last)) =
                (((pre ++ text) ++ code key) ++ written r last)%string).
    { destruct isString; rewrite replaceFirst_after by exact Hu;
        now rewrite !string_app_assoc. }
    rewrite E, IH.
    + now rewrite !string_app_assoc.
    + exact Hr.
    + rewrite noBrace_app, Hu. now apply code_noBrace.
Qed.

End Compile.

(** On a template whose only opening braces are those of placeholders
    with valid keys, [compileTemplate] puts [this.get("key")] in place
    of each placeholder (wrapped in quotes and plus signs when
    [isString] is set) and leaves every other character where it is;
    compiling the result again changes nothing. *)
Theorem compileTemplate_expands (pieces : list (string * string))
    (last : string) (isString : bool) :
  plainPieces pieces = true -> noBrace last = true ->
  let code := if isString then Template.getConcat else Template.getCall in
  let compiled := Template.compileTemplate (written pieces last) isString None in
  compiled = expanded code pieces last /\
  Template.compileTemplate compiled isString None = compiled.
Proof.
  intros Hp Hl code compiled.
  assert (E : compiled = expanded code pieces last).
  { unfold compiled, Template.compileTemplate.
    rewrite scan_written by assumption.
    apply (@fold_written isString pieces last EmptyString Hp eq_refl). }
  split; [exact E|].
  assert (Hn : noBrace compiled = true).
  { rewrite E. clear E compiled. induction pieces as [|[text key] r IH].
    - exact Hl.
    - cbn [plainPieces forallb fst snd] in Hp.
      apply andb_prop in Hp. destruct Hp as [Htk Hr].
      apply andb_prop in Htk. destruct Htk as [Ht Hk].
      unfold validKey in Hk. apply andb_prop in Hk. destruct Hk as [_ Hk].
      cbn [expanded]. rewrite !noBrace_app, Ht, (IH Hr).
      unfold code. now rewrite code_noBrace. }
  unfold Template.compileTemplate.
  pose proof (@scan_written [] compiled eq_refl Hn) as S.
  cbn [written List.map] in S. now rewrite S.
Qed.

Lemma compileTemplate_expands_witness :
  let pieces := [("Hello ", "user.name"); (", you have ", "count(items)")] in
  let code := Template.getCall in
  let compiled :=
    Template.compileTemplate (written pieces " new messages") false None in
  compiled = expanded code pieces " new messages" /\
  Template.compileTemplate compiled false None = compiled.
Proof.
  apply (@compileTemplate_expands
           [("Hello ", "user.name"); (", you have ", "count(items)")]
           " new messages" false); reflexivity.
Defined.

Lemma keyRun_stops (k w : string) :
  keyChars k = false -> noClose k = true ->
  exists k1 c rest,
    Template.keyRun (k ++ w) = (k1, String c rest) /\ (c =? "}")%char = false.
Proof.
  induction k as [|x k IH]; intros Hk Hc; [discriminate Hk|].
  cbn [keyChars] in Hk. cbn [noClose] in Hc.
  apply andb_prop in Hc. destruct Hc as [Hx Hc].
  apply negb_true_iff in Hx. cbn [append Template.keyRun].
  destruct (Template.keyChar x) eqn:Kx.
  - destruct (IH Hk Hc) as (k1 & c & rest & E & Hne).
    rewrite E. eauto.
  - eauto.
Qed.

Lemma matchAt_malformed (k w : string) :
  validKey k = false -> noClose k = true ->
  Template.matchAt (Template.placeholder k ++ w) = None.
Proof.
  intros Hv Hc. unfold Template.placeholder.
  rewrite string_app_assoc. cbn [append Template.matchAt].
  rewrite string_app_assoc.
  destruct (keyChars k) eqn:Hk.
  - unfold validKey in Hv. rewrite Hk, andb_true_r in Hv.
    apply negb_false_iff, String.eqb_eq in Hv. subst k. reflexivity.
  - destruct (@keyRun_stops k ("}}" ++ w) Hk Hc) as (k1 & c & rest & E & Hne).
    rewrite E. destruct k1; [reflexivity|].
    destruct c as [[] [] [] [] [] [] [] []]; try reflexivity; discriminate Hne.
Qed.

(** A placeholder whose key holds no brace and is not valid (it is
    empty, or holds a character outside the class), standing between
    texts without an opening brace, is no match: the template comes
    back as it was, and the callback, if there is one, is not
    called. *)
Theorem compileTemplate_keeps_malformed (pre k post : string)
    (isString : bool)
    (customCode : option (string -> string -> string -> string)) :
  noBrace pre = true -> noBrace post = true ->
  noBrace k = true -> noClose k = true -> validKey k = false ->
  Template.compileTemplate (pre ++ Template.placeholder k ++ post)
                           isString customCode =
  (pre ++ Template.placeholder k ++ post)%string.
Proof.
  intros Hpre Hpost Hk Hc Hv. unfold Template.compileTemplate.
  assert (E : Template.scan 0 (pre ++ Template.placeholder k ++ post) = []).
  { rewrite scan_text by exact Hpre.
    pose proof (@matchAt_malformed k post Hv Hc) as M.
    unfold Template.placeholder in *. rewrite string_app_assoc in *.
    cbn [append] in *. cbn [Template.scan]. rewrite M.
    assert (M2 : Template.matchAt (String "{" ((k ++ "}}") ++ post)) = None).
    { destruct k as [|c k]; [reflexivity|].
      cbn [noBrace] in Hk. apply andb_prop in Hk. destruct Hk as [Hb _].
      apply negb_true_iff in Hb. cbn [append]. unfold Template.matchAt.
      destruct c as [[] [] [] [] [] [] [] []]; try reflexivity;
        discriminate Hb. }
    rewrite M2.
    rewrite <- (string_app_nil_r ((k ++ "}}") ++ post)).
    apply scan_text. rewrite !noBrace_app, Hk, Hpost. reflexivity. }
  now rewrite E.
Qed.

Lemma compileTemplate_keeps_malformed_witness :
  Template.compileTemplate ("a " ++ Template.placeholder "x y" ++ " b")
                           false None =
  ("a " ++ Template.placeholder "x y" ++ " b")%string.
Proof.
  apply (@compileTemplate_keeps_malformed "a " "x y" " b" false None);
    reflexivity.
Defined.

(** ** Materializing and then reconciling *)

Lemma rendered_alike (v : vnode) :
  lowerTags v = true -> alike v (rendered v) = true.
Proof.
  induction v as [ty s p vs m IH] using vnode_ind. intros H.
  cbn [lowerTags type children] in H.
  apply andb_prop in H. destruct H as [Ht Hc].
  cbn [rendered type val children].
  destruct (ty =? "#text") eqn:E.
  - cbn [alike type]. exact E.
  - cbn [alike type children List.map]. rewrite E.
    apply String.eqb_eq in Ht. rewrite toLowerCase_toUpperCase, Ht.
    rewrite String.eqb_refl. cbn [negb andb unique forallb].
    clear -IH Hc. induction IH as [|x vs Hx _ IHvs]; [reflexivity|].
    cbn [forallb] in Hc. apply andb_prop in Hc. destruct Hc as [H1 H2].
    cbn [List.map]. now rewrite (Hx H1), (IHvs H2).
Qed.

(** Materializing a tree and reconciling the result against the same
    tree gives the tree's description in full: the attributes that
    materializing leaves out are put on by the reconciliation.  This
    is for a registry without directives and special directives, and
    a tree that is rendered throughout, whose types are element names
    in lower case and whose attribute maps have plain names and safe
    values. *)
Theorem materialize_then_diff_conforms (events : string -> bool)
    (directives : string -> option hook) (specialDirectives : string -> bool)
    (v : vnode) (kids : list dnode) (i : nat) :
  (forall k, directives k = None) ->
  (forall k, specialDirectives k = false) ->
  rendersFully v = true ->
  plainTree v = true ->
  lowerTags v = true ->
  nth_error kids i = Some (fst (createNodeFromVNode events v)) ->
  attrFree (fst (createNodeFromVNode events v)) = true /\
  exists node' t,
    diff events directives specialDirectives kids i (Some v)
    = Some (Dom.replaceAt i node' kids, t) /\
    conforms v node' /\
    (forall e, In e t -> structural e = false).
Proof.
  intros Hd Hs Hr Hp Hl Hi. rewrite createNodeFromVNode_rendered in *.
  cbn [fst] in *. split; [apply rendered_attrFree|].
  apply (@diff_same_shape events directives specialDirectives v kids i
           (rendered v) Hd Hs Hr Hp (rendered_alike _ Hl) Hi).
Qed.

Lemma materialize_then_diff_conforms_witness :
  let v := h "ul" (Some [("class", VStr "list")]) None
             [ANode (h "li" (Some [("id", VStr "a")]) None [AString "one"]);
              ANode (h "li" None None [AString "two"])] in
  let kids := [fst (createNodeFromVNode (fun _ => false) v)] in
  attrFree (fst (createNodeFromVNode (fun _ => false) v)) = true /\
  exists node' t,
    diff (fun _ => false) (fun _ => None) (fun _ => false) kids 0 (Some v)
    = Some (Dom.replaceAt 0 node' kids, t) /\
    conforms v node' /\
    (forall e, In e t -> structural e = false).
Proof.
  apply (@materialize_then_diff_conforms
           (fun _ => false) (fun _ => None) (fun _ => false)
           (h "ul" (Some [("class", VStr "list")]) None
              [ANode (h "li" (Some [("id", VStr "a")]) None [AString "one"]);
               ANode (h "li" None None [AString "two"])])
           [fst (createNodeFromVNode (fun _ => false)
                   (h "ul" (Some [("class", VStr "list")]) None
                      [ANode (h "li" (Some [("id", VStr "a")]) None
                                [AString "one"]);
                       ANode (h "li" None None [AString "two"])]))]
           0); reflexivity.
Defined.

(** ** What the materializer reads, and how the differ ends *)

Lemma rendered_relabel (fp : dict -> dict) (fm : metadata -> metadata)
    (v : vnode) :
  rendered (relabel fp fm v) = rendered v.
Proof.
  induction v as [ty s p vs m IH] using vnode_ind.
  cbn [relabel rendered type val children].
  destruct (ty =? "#text"); [reflexivity|]. f_equal.
  rewrite map_map. apply map_ext_in. intros x Hx.
  rewrite Forall_forall in IH. now apply IH.
Qed.

(** Materializing reads the types, the texts and the children only:
    with other attribute maps and other metadata, render gates and
    listeners included, the same live subtree comes out.  A node that
    is gated off is materialized all the same when it sits under a
    node that is appended or put in place of another. *)
Theorem createNodeFromVNode_reads_shape_only (events : string -> bool)
    (fp : dict -> dict) (fm : metadata -> metadata) (v : vnode) :
  createNodeFromVNode events (relabel fp fm v) = createNodeFromVNode events v.
Proof.
  rewrite !createNodeFromVNode_rendered. now rewrite rendered_relabel.
Qed.

(** With no directive registered and tame desired children, the child
    loop of [diff] ends: after at most twice the number of desired
    children plus the number of live children turns it has a result,
    the same for any larger allowance, and it never reaches the call
    with neither a live nor a desired node. *)
Theorem childLoop_terminates (events : string -> bool)
    (directives : string -> option hook) (specialDirectives : string -> bool)
    (vs : list vnode) (ks : list dnode) :
  (forall k, directives k = None) ->
  forallb tame vs = true ->
  exists r,
    forall fuel,
      2 * length vs + length ks <= fuel ->
      childLoop events directives specialDirectives fuel vs 0 ks = Some r.
Proof.
  intros _ _.
  exists (diffChildren events directives specialDirectives vs 0 ks).
  intros fuel Hf.
  exact (@childLoop_diffChildren events directives specialDirectives
           [] vs fuel ks Hf).
Qed.

Lemma childLoop_terminates_witness :
  let vs := [h "li" None None [AString "one"];
             h "li" (Some [("class", VStr "b")]) None [AString "two"]] in
  let ks := [DElem "LI" [] [] [DText "old"]; DText "x"; DText "y"] in
  exists r,
    forall fuel,
      2 * length vs + length ks <= fuel ->
      childLoop (fun _ => false) (fun _ => None) (fun _ => false)
                fuel vs 0 ks = Some r.
Proof.
  apply (@childLoop_terminates (fun _ => false) (fun _ => None)
           (fun _ => false)
           [h "li" None None [AString "one"];
            h "li" (Some [("class", VStr "b")]) None [AString "two"]]
           [DElem "LI" [] [] [DText "old"]; DText "x"; DText "y"]).
  - reflexivity.
  - reflexivity.
Defined.

(** A live text node is never turned into an element in place: against
    a desired node of any other type, with the gate open, it is
    replaced by the materialization of the desired node, and nothing
    else happens. *)
Theorem diff_replaces_text_by_element (events : string -> bool)
    (directives : string -> option hook) (specialDirectives : string -> bool)
    (v : vnode) (kids : list dnode) (i : nat) (s : string) :
  shouldRender (meta v) = true ->
  type v <> "#text" ->
  nth_error kids i = Some (DText s) ->
  let el := fst (createNodeFromVNode events v) in
  diff events directives specialDirectives kids i (Some v) =
  Some (Dom.replaceAt i el kids, [ReplaceChild el (DText s)]) /\
  (exists c, el = DElem (Str.toUpperCase (type v)) [] [] c) /\
  nth_error (Dom.replaceAt i el kids) i = Some el.
Proof.
  intros Hg Ht Hi. cbv zeta. rewrite createNodeFromVNode_rendered.
  cbn [fst]. split; [|split].
  - unfold diff. rewrite diffNode_eq, Hg, Hi. cbn [Dom.nodeName].
    assert (E : (Str.toLowerCase "#text" =? type v) = false).
    { apply String.eqb_neq. intros H. apply Ht. now rewrite <- H. }
    now rewrite E.
  - destruct v as [ty x p c m]. cbn [rendered type children val] in *.
    apply String.eqb_neq in Ht. rewrite Ht. eauto.
  - assert (Hl : i < length kids) by (apply nth_error_Some; congruence).
    unfold Dom.replaceAt.
    rewrite nth_error_app2 by (rewrite length_firstn; lia).
    rewrite length_firstn, Nat.min_l, Nat.sub_diag by lia. reflexivity.
Qed.

Lemma diff_replaces_text_by_element_witness :
  let v := h "b" (Some [("class", VStr "x")]) None [AString "bold"] in
  let kids := [DText "plain"] in
  let el := fst (createNodeFromVNode (fun _ => false) v) in
  diff (fun _ => false) (fun _ => None) (fun _ => false) kids 0 (Some v) =
  Some (Dom.replaceAt 0 el kids, [ReplaceChild el (DText "plain")]) /\
  (exists c, el = DElem (Str.toUpperCase (type v)) [] [] c) /\
  nth_error (Dom.replaceAt 0 el kids) 0 = Some el.
Proof.
  apply (@diff_replaces_text_by_element
           (fun _ => false) (fun _ => None) (fun _ => false)
           (h "b" (Some [("class", VStr "x")]) None [AString "bold"])
           [DText "plain"] 0 "plain").
  - reflexivity.
  - simpl. discriminate.
  - reflexivity.
Defined.
